(** * telethon/events/callbackquery.py: the CallbackQuery event

    A shallow embedding of [CallbackQuery.build] and of the methods of
    [CallbackQuery.Event]: [get_message], [_refetch_sender], [answer],
    [respond], [reply], [edit] and [delete].

    The methods are coroutines that mutate the event object, call
    collaborators (the client, its session, the chat getter) and schedule
    tasks on the event loop.  They are embedded in a state-and-exception
    monad over a [World]: the event object, the log of the calls issued so
    far, the tasks handed to [loop.create_task] that have not started yet,
    and the outcomes of the tasks that have run. *)

From Stdlib Require Import ZArith String List.
From stdpp Require Import base gmap strings list.

Local Open Scope Z_scope.

(** ** Python values and exceptions *)

(** The exception classes the code can meet.  The only handler in the
    module is [except ValueError] ([ValueError] stands for the class and
    its subclasses); the other classes stand for what the collaborators
    raise besides it: a call with wrong arguments, an error answered by
    the server, a lost connection. *)
Inductive Exn : Type :=
| ValueError
| TypeError
| RPCError
| ConnectionError.

Inductive Result (A : Type) : Type :=
| Ok (a : A)
| Raise (e : Exn).
Arguments Ok {A} a.
Arguments Raise {A} e.

(** Values passed through untouched: positional and keyword arguments of
    [send_message] and friends, and the results of transport calls. *)
Inductive PyVal : Type :=
| PyNone
| PyBool (b : bool)
| PyInt (z : Z)
| PyStr (s : string)
| PyObj (repr : string).

(** [bool(v)] *)
Definition truthy (v : PyVal) : bool :=
  match v with
  | PyNone => false
  | PyBool b => b
  | PyInt z => negb (z =? 0)
  | PyStr s => negb (String.eqb s "")
  | PyObj _ => true
  end.

(** ** TL objects, as far as the module inspects them *)

Inductive Peer : Type :=
| PeerUser (user_id : Z)
| PeerChat (chat_id : Z)
| PeerChannel (channel_id : Z).

(** Modelled from the spec: the TL types are generated code outside this
    module.  An entity is a user, chat or channel of the entity snapshot;
    the module only stores entities and tests them for truth, and a TL
    object, which defines neither [__bool__] nor [__len__], is always
    truthy. *)
Record Entity : Type := {
  ent_id : Z;
  ent_name : string
}.

(** Modelled from the spec: the input peer types are generated code
    outside this module.  The module reads one attribute of an input
    peer, [access_hash], and only through [getattr] with a default:
    [ip_access_hash = None] stands for an object without that attribute
    (InputPeerSelf, InputPeerChat), [Some 0] for a peer whose access hash
    is not known. *)
Record InputPeer : Type := {
  ip_name : string;
  ip_id : Z;
  ip_access_hash : option Z
}.

(** [getattr(ip, 'access_hash', default)] *)
Definition getattr_access_hash (ip : InputPeer) (default : PyVal) : PyVal :=
  match ip_access_hash ip with
  | Some h => PyInt h
  | None => default
  end.

(** Modelled from the spec: the custom Message class is outside this
    module.  A message as returned by [client.get_messages];
    [_refetch_sender] reads its [_sender] and [_input_sender]. *)
Record Message : Type := {
  m_id : Z;
  m_sender : option Entity;
  m_input_sender : option InputPeer
}.

(** Modelled from the spec: the update types are generated code outside
    this module.  The constructor reads [peer], [msg_id] and [user_id] of
    the query, the properties [query_id], [msg_id] and [data]. *)
Record UpdateBotCallbackQuery : Type := {
  query_id : Z;
  user_id : Z;
  peer : Peer;
  msg_id : Z;
  chat_instance : Z;
  data : option (list Byte.byte);
  game_short_name : option string
}.

(** The updates handed to [build]: the body and the [_entities] attribute
    the dispatcher attaches to every update. *)
Inductive UpdateBody : Type :=
| UpdBotCallbackQuery (q : UpdateBotCallbackQuery)
| UpdInlineBotCallbackQuery (q_id : Z) (u_id : Z)
| UpdNewMessage (m : Message)
| UpdOther (name : string).

Record Update : Type := {
  upd_body : UpdateBody;
  upd_entities : gmap Z Entity
}.

(** ** The event object *)

Record Event : Type := {
  (* set by EventCommon.__init__ and by the dispatcher *)
  _chat_peer : Peer;
  _message_id : Z;
  _entities : gmap Z Entity;
  _chat : option Entity;
  (* set by Event.__init__ *)
  query : UpdateBotCallbackQuery;
  _sender_id : Z;
  _input_sender : option InputPeer;
  _sender : option Entity;
  _message : option Message;
  _answered : bool
}.

Definition with_entities (x : gmap Z Entity) (e : Event) : Event :=
  {| _chat_peer := _chat_peer e; _message_id := _message_id e;
     _entities := x; _chat := _chat e; query := query e;
     _sender_id := _sender_id e; _input_sender := _input_sender e;
     _sender := _sender e; _message := _message e;
     _answered := _answered e |}.

Definition with_input_sender (x : option InputPeer) (e : Event) : Event :=
  {| _chat_peer := _chat_peer e; _message_id := _message_id e;
     _entities := _entities e; _chat := _chat e; query := query e;
     _sender_id := _sender_id e; _input_sender := x;
     _sender := _sender e; _message := _message e;
     _answered := _answered e |}.

Definition with_sender (x : option Entity) (e : Event) : Event :=
  {| _chat_peer := _chat_peer e; _message_id := _message_id e;
     _entities := _entities e; _chat := _chat e; query := query e;
     _sender_id := _sender_id e; _input_sender := _input_sender e;
     _sender := x; _message := _message e;
     _answered := _answered e |}.

Definition with_message (x : option Message) (e : Event) : Event :=
  {| _chat_peer := _chat_peer e; _message_id := _message_id e;
     _entities := _entities e; _chat := _chat e; query := query e;
     _sender_id := _sender_id e; _input_sender := _input_sender e;
     _sender := _sender e; _message := x;
     _answered := _answered e |}.

Definition with_answered (x : bool) (e : Event) : Event :=
  {| _chat_peer := _chat_peer e; _message_id := _message_id e;
     _entities := _entities e; _chat := _chat e; query := query e;
     _sender_id := _sender_id e; _input_sender := _input_sender e;
     _sender := _sender e; _message := _message e;
     _answered := x |}.

(** [Event.__init__(query)].  Modelled from the spec: EventCommon is
    outside this module; the first four fields are what
    [super().__init__(chat_peer=query.peer, msg_id=query.msg_id)] leaves,
    the peer and message id it is given, no entities and no chat yet. *)
Definition Event_init (q : UpdateBotCallbackQuery) : Event :=
  {| _chat_peer := peer q; _message_id := msg_id q;
     _entities := ∅; _chat := None;
     query := q;
     _sender_id := user_id q;
     _input_sender := None;
     _sender := None;
     _message := None;
     _answered := false |}.

(** The properties [id], [message_id], [data] of the event ([id_] and
    [data_] here: [id] is the identity function and [data] the field of
    the query). *)
Definition id_ (e : Event) : Z := query_id (query e).
Definition message_id (e : Event) : Z := msg_id (query e).
Definition data_ (e : Event) : option (list Byte.byte) := data (query e).

(** Modelled from the spec: the property [sender_id] is inherited from
    SenderGetter, outside this module; it is the sender id the event was
    built with, which [__init__] keeps in [_sender_id]. *)
Definition sender_id (e : Event) : Z := _sender_id e.

(** ** Calls, the log and the world *)

Record SetBotCallbackAnswerRequest : Type := {
  r_query_id : Z;
  r_cache_time : Z;
  r_alert : bool;
  r_message : option string;
  r_url : option string
}.

(** A coroutine object handed to [loop.create_task]: the module only ever
    schedules [self.answer(...)]. *)
Inductive Coroutine : Type :=
| CoAnswer (message : option string) (cache_time : Z)
           (url : option string) (alert : bool).

Inductive Call : Type :=
| CCreateTask (co : Coroutine)
| CGetInputChat
| CGetMessages (chat : option InputPeer) (ids : Z)
| CSessionGetInputEntity (key : Z)
| CInvoke (req : SetBotCallbackAnswerRequest)
| CSendMessage (entity : option InputPeer)
               (args : list PyVal) (kwargs : gmap string PyVal)
| CEditMessage (entity : option InputPeer) (message : Z)
               (args : list PyVal) (kwargs : gmap string PyVal)
| CDeleteMessages (entity : option InputPeer) (message_ids : list Z)
                  (args : list PyVal) (kwargs : gmap string PyVal).

(** A log entry: the call, and the value [self._answered] had at the
    moment the call was issued. *)
Record LogEntry : Type := {
  le_call : Call;
  le_answered : bool
}.

Record World : Type := {
  ev : Event;
  log : list LogEntry;
  pending : list Coroutine;
  finished : list (Result PyVal)
}.

Definition with_ev (f : Event -> Event) (w : World) : World :=
  {| ev := f (ev w); log := log w; pending := pending w;
     finished := finished w |}.

Definition with_log (l : list LogEntry) (w : World) : World :=
  {| ev := ev w; log := l; pending := pending w; finished := finished w |}.

Definition with_pending (p : list Coroutine) (w : World) : World :=
  {| ev := ev w; log := log w; pending := p; finished := finished w |}.

Definition with_finished (f : list (Result PyVal)) (w : World) : World :=
  {| ev := ev w; log := log w; pending := pending w; finished := f |}.

(** What an awaited collaborator call does: whether the awaiting coroutine
    was suspended (control went back to the event loop) before the call
    completed, and how the call completed. *)
Record Response (A : Type) : Type := {
  suspended : bool;
  outcome : Result A
}.
Arguments suspended {A} r.
Arguments outcome {A} r.

(** The collaborators, which the coroutines take as they come: none of
    them is defined in this module.  Each may answer differently from one
    call to the next, so each is given the log of the calls issued
    before. *)
Record Env : Type := {
  (* ChatGetter *)
  is_channel : bool;
  get_input_chat : list LogEntry -> Response (option InputPeer);
  (* utils *)
  get_input_peer : option Entity -> Result InputPeer;
  (* client.session *)
  session_get_input_entity : list LogEntry -> Z -> Result InputPeer;
  (* client *)
  get_messages :
    list LogEntry -> option InputPeer -> Z -> Response (option Message);
  invoke :
    list LogEntry -> SetBotCallbackAnswerRequest -> Response PyVal;
  send_message :
    list LogEntry -> option InputPeer -> list PyVal -> gmap string PyVal ->
    Response PyVal;
  edit_message :
    list LogEntry -> option InputPeer -> Z -> list PyVal ->
    gmap string PyVal -> Response PyVal;
  delete_messages :
    list LogEntry -> option InputPeer -> list Z -> list PyVal ->
    gmap string PyVal -> Response PyVal
}.

(** ** The monad of coroutine bodies *)

Definition M (A : Type) : Type := World -> Result A * World.

Definition ret {A} (a : A) : M A := fun w => (Ok a, w).

Definition bind {A B} (m : M A) (k : A -> M B) : M B :=
  fun w =>
    match m w with
    | (Ok a, w') => k a w'
    | (Raise e, w') => (Raise e, w')
    end.

Declare Scope py_scope.
Delimit Scope py_scope with py.
Notation "x <- m ;; k" := (bind m (fun x => k))
  (at level 20, m at level 99, k at level 200, only parsing) : py_scope.
Notation "m ;; k" := (bind m (fun _ => k))
  (at level 100, k at level 200, only parsing, right associativity) : py_scope.

(** [self] *)
Definition self : M Event := fun w => (Ok (ev w), w).

(** [self.<field> = x] *)
Definition assign (f : Event -> Event) : M unit :=
  fun w => (Ok tt, with_ev f w).

(** Evaluating an expression that may raise. *)
Definition eval {A} (r : Result A) : M A := fun w => (r, w).

Definition record (c : Call) (w : World) : World :=
  with_log (log w ++ [{| le_call := c; le_answered := _answered (ev w) |}]) w.

(** A plain (not awaited) call of a collaborator. *)
Definition call {A} (c : Call) (f : list LogEntry -> Result A) : M A :=
  fun w => (f (log w), record c w).

(** [try: body except ValueError: handler].  What [body] did to the world
    before raising stays done. *)
Definition try_except_ValueError {A} (body handler : M A) : M A :=
  fun w =>
    match body w with
    | (Raise ValueError, w') => handler w'
    | r => r
    end.

(** [self._client.loop.create_task(co)]: the coroutine is queued; nothing
    of its body runs before the loop gets control. *)
Definition create_task (co : Coroutine) : M unit :=
  fun w => (Ok tt, with_pending (pending w ++ [co]) (record (CCreateTask co) w)).

(** ** The coroutines of [CallbackQuery.Event]

    [loop] is what the event loop does with the world while the running
    coroutine is suspended. *)

Section Coroutines.

Variable env : Env.
Variable loop : World -> World.

Local Open Scope py_scope.

(** [await f(...)]: the call is issued; if it suspends the coroutine the
    loop runs before the call's outcome comes back. *)
Definition await {A} (c : Call) (f : list LogEntry -> Response A) : M A :=
  fun w =>
    let r := f (log w) in
    let w1 := record c w in
    (outcome r, if suspended r then loop w1 else w1).

(** [await self.get_input_chat() if self.is_channel else None], the
    right-hand side of the first statement of [get_message]'s [try]. *)
Definition get_message_chat : M (option InputPeer) :=
  if is_channel env
  then await CGetInputChat (get_input_chat env)
  else ret None.

(** The [return self._message] that follows the [try] statement is the
    last step of the [try] body here: it cannot raise, and the handler
    leaves the function. *)
Definition get_message : M (option Message) :=
  this <- self ;;
  match _message this with
  | Some m => ret (Some m)
  | None =>
      try_except_ValueError
        (chat <- get_message_chat ;;
         this <- self ;;
         m <- await (CGetMessages chat (msg_id (query this)))
                (fun l => get_messages env l chat (msg_id (query this))) ;;
         assign (with_message m) ;;
         this <- self ;;
         ret (_message this))
        (ret None)
  end.

Definition _refetch_sender : M unit :=
  this <- self ;;
  assign (with_sender (_entities this !! sender_id this)) ;;
  this <- self ;;
  match _sender this with
  | None => ret tt
  | Some _ =>
      ip <- eval (get_input_peer env (_chat this)) ;;
      assign (with_input_sender (Some ip)) ;;
      if negb (truthy (getattr_access_hash ip (PyBool true))) then
        try_except_ValueError
          (ip' <- call (CSessionGetInputEntity (_sender_id this))
                    (fun l => session_get_input_entity env l
                                (_sender_id this)) ;;
           assign (with_input_sender (Some ip')))
          (m <- get_message ;;
           match m with
           | Some m =>
               assign (with_sender (m_sender m)) ;;
               assign (with_input_sender (m_input_sender m))
           | None => ret tt
           end)
      else ret tt
  end.

Definition answer (message : option string) (cache_time : Z)
    (url : option string) (alert : bool) : M PyVal :=
  this <- self ;;
  if _answered this then ret PyNone
  else
    assign (with_answered true) ;;
    let req := {| r_query_id := query_id (query this);
                  r_cache_time := cache_time;
                  r_alert := alert;
                  r_message := message;
                  r_url := url |} in
    await (CInvoke req) (fun l => invoke env l req).

(** [self.answer()], the coroutine object with the default arguments. *)
Definition answer_default : Coroutine := CoAnswer None 0 None false.

Definition respond (args : list PyVal) (kwargs : gmap string PyVal)
    : M PyVal :=
  create_task answer_default ;;
  chat <- await CGetInputChat (get_input_chat env) ;;
  await (CSendMessage chat args kwargs)
    (fun l => send_message env l chat args kwargs).

Definition reply (args : list PyVal) (kwargs : gmap string PyVal)
    : M PyVal :=
  create_task answer_default ;;
  this <- self ;;
  let kwargs := <["reply_to" := PyInt (msg_id (query this))]> kwargs in
  chat <- await CGetInputChat (get_input_chat env) ;;
  await (CSendMessage chat args kwargs)
    (fun l => send_message env l chat args kwargs).

Definition edit (args : list PyVal) (kwargs : gmap string PyVal)
    : M PyVal :=
  create_task answer_default ;;
  chat <- await CGetInputChat (get_input_chat env) ;;
  this <- self ;;
  await (CEditMessage chat (msg_id (query this)) args kwargs)
    (fun l => edit_message env l chat (msg_id (query this)) args kwargs).

Definition delete (args : list PyVal) (kwargs : gmap string PyVal)
    : M PyVal :=
  create_task answer_default ;;
  chat <- await CGetInputChat (get_input_chat env) ;;
  this <- self ;;
  await (CDeleteMessages chat [msg_id (query this)] args kwargs)
    (fun l => delete_messages env l chat [msg_id (query this)] args kwargs).

End Coroutines.

(** ** The event loop

    When the running coroutine is suspended, the loop starts the tasks
    queued by [create_task], first come first served, and keeps each
    task's outcome in the task: nobody awaits it.  A task of this module
    is a run of [answer], which queues nothing; while it waits for its own
    request the loop has only the tasks queued behind it to run, and they
    run next. *)

Definition run_coroutine (env : Env) (co : Coroutine) : M PyVal :=
  match co with
  | CoAnswer message cache_time url alert =>
      answer env (fun w => w) message cache_time url alert
  end.

Fixpoint run_tasks (env : Env) (tasks : list Coroutine) (w : World) : World :=
  match tasks with
  | [] => w
  | co :: tasks' =>
      let '(r, w') := run_coroutine env co w in
      run_tasks env tasks' (with_finished (finished w' ++ [r]) w')
  end.

Definition event_loop (env : Env) (w : World) : World :=
  run_tasks env (pending w) (with_pending [] w).

(** ** [CallbackQuery.build] *)

Section Build.

(** [EventBuilder._filter_event], defined by the base class. *)
Variable _filter_event : Event -> Result (option Event).

Definition build (update : Update) : Result (option Event) :=
  match upd_body update with
  | UpdBotCallbackQuery q =>
      let event := Event_init q in
      let event := with_entities (upd_entities update) event in
      _filter_event event
  | _ => Ok None
  end.

End Build.

(** ** Operations on an event, and what the log says *)

(** The world of an event nobody has used yet. *)
Definition new_world (e : Event) : World :=
  {| ev := e; log := []; pending := []; finished := [] |}.

(** The four methods that schedule the acknowledgment and then act. *)
Inductive Action : Type :=
| ARespond
| AReply
| AEdit
| ADelete.

Definition run_action (env : Env) (a : Action)
    (args : list PyVal) (kwargs : gmap string PyVal) : M PyVal :=
  match a with
  | ARespond => respond env (event_loop env) args kwargs
  | AReply => reply env (event_loop env) args kwargs
  | AEdit => edit env (event_loop env) args kwargs
  | ADelete => delete env (event_loop env) args kwargs
  end.

(** A call of a method of the event by the handler. *)
Inductive Op : Type :=
| OGetMessage
| ORefetchSender
| OAnswer (message : option string) (cache_time : Z)
          (url : option string) (alert : bool)
| OAction (a : Action) (args : list PyVal) (kwargs : gmap string PyVal).

(** The handler awaits the method and goes on, whether it returned or
    raised. *)
Definition run_op (env : Env) (o : Op) (w : World) : World :=
  match o with
  | OGetMessage => (get_message env (event_loop env) w).2
  | ORefetchSender => (_refetch_sender env (event_loop env) w).2
  | OAnswer message cache_time url alert =>
      (answer env (event_loop env) message cache_time url alert w).2
  | OAction a args kwargs => (run_action env a args kwargs w).2
  end.

Definition run_ops (env : Env) (ops : list Op) (w : World) : World :=
  fold_left (fun w o => run_op env o w) ops w.

Definition is_ack (c : Call) : bool :=
  match c with
  | CInvoke _ => true
  | _ => false
  end.

(** The acknowledgment requests sent so far. *)
Definition acks (l : list LogEntry) : list LogEntry :=
  filter (fun en => is_ack (le_call en) = true) l.

Definition is_session_call (c : Call) : bool :=
  match c with
  | CSessionGetInputEntity _ => true
  | _ => false
  end.

Definition is_fetch (c : Call) : bool :=
  match c with
  | CGetMessages _ _ => true
  | _ => false
  end.

(** The message fetches issued so far. *)
Definition fetches (l : list LogEntry) : list LogEntry :=
  filter (fun en => is_fetch (le_call en) = true) l.

(** The calls of one kind in the log, in the order they were issued. *)
Definition calls (kind : Call -> bool) (l : list LogEntry) : list Call :=
  filter (fun c => kind c = true) (map le_call l).

Definition is_send (c : Call) : bool :=
  match c with
  | CSendMessage _ _ _ => true
  | _ => false
  end.

Definition is_delete (c : Call) : bool :=
  match c with
  | CDeleteMessages _ _ _ _ => true
  | _ => false
  end.

(** One acknowledgment request has been sent exactly when the latch is
    set. *)
Definition ack_inv (w : World) : Prop :=
  length (acks (log w)) = if _answered (ev w) then 1%nat else 0%nat.

(** The same collaborators, except for what the acknowledgment request
    gets back. *)
Definition with_invoke
    (f : list LogEntry -> SetBotCallbackAnswerRequest -> Response PyVal)
    (env : Env) : Env :=
  {| is_channel := is_channel env;
     get_input_chat := get_input_chat env;
     get_input_peer := get_input_peer env;
     session_get_input_entity := session_get_input_entity env;
     get_messages := get_messages env;
     invoke := f;
     send_message := send_message env;
     edit_message := edit_message env;
     delete_messages := delete_messages env |}.

(** The request [answer] sends. *)
Definition answer_request (e : Event) (message : option string)
    (cache_time : Z) (url : option string) (alert : bool)
    : SetBotCallbackAnswerRequest :=
  {| r_query_id := query_id (query e);
     r_cache_time := cache_time;
     r_alert := alert;
     r_message := message;
     r_url := url |}.

(** The world right after [create_task(self.answer())]. *)
Definition scheduled (w : World) : World :=
  with_pending (pending w ++ [answer_default])
    (record (CCreateTask answer_default) w).

(** The call an action makes once it has the input chat, and what the
    client answers to it ([action_run] below shows that the four methods
    do make this call). *)
Definition action_call (a : Action) (this : Event)
    (chat : option InputPeer) (args : list PyVal) (kwargs : gmap string PyVal)
    : Call :=
  match a with
  | ARespond => CSendMessage chat args kwargs
  | AReply =>
      CSendMessage chat args
        (<["reply_to" := PyInt (msg_id (query this))]> kwargs)
  | AEdit => CEditMessage chat (msg_id (query this)) args kwargs
  | ADelete => CDeleteMessages chat [msg_id (query this)] args kwargs
  end.

Definition action_response (env : Env) (a : Action) (this : Event)
    (chat : option InputPeer) (args : list PyVal) (kwargs : gmap string PyVal)
    (l : list LogEntry) : Response PyVal :=
  match a with
  | ARespond => send_message env l chat args kwargs
  | AReply =>
      send_message env l chat args
        (<["reply_to" := PyInt (msg_id (query this))]> kwargs)
  | AEdit => edit_message env l chat (msg_id (query this)) args kwargs
  | ADelete => delete_messages env l chat [msg_id (query this)] args kwargs
  end.

(** Whether one of the two awaits of an action suspended it: the await of
    the input chat, or else the await of the action's own call. *)
Definition gave_way (env : Env) (a : Action)
    (args : list PyVal) (kwargs : gmap string PyVal) (w : World) : bool :=
  let chat_response := get_input_chat env (log (scheduled w)) in
  suspended chat_response ||
  match outcome chat_response with
  | Ok chat =>
      suspended
        (action_response env a (ev w) chat args kwargs
           (log (record CGetInputChat (scheduled w))))
  | Raise _ => false
  end.

(** ** Steps that keep a relation between worlds *)

Definition steps (R : World -> World -> Prop) {A} (m : M A) : Prop :=
  forall w, R w (m w).2.

(** A cached message stays. *)
Definition keeps_message (w w' : World) : Prop :=
  forall m, _message (ev w) = Some m -> _message (ev w') = Some m.

(** The latch stays set, and the log keeps counting one request for it. *)
Definition keeps_latch (w w' : World) : Prop :=
  (_answered (ev w) = true -> _answered (ev w') = true) /\
  (ack_inv w -> ack_inv w').

(** Two worlds that differ at most in the outcomes kept in the tasks. *)
Definition same_but_finished (w w' : World) : Prop :=
  ev w = ev w' /\ log w = log w' /\ pending w = pending w'.

(** The sender slots stay as they are. *)
Definition keeps_senders (w w' : World) : Prop :=
  _sender (ev w') = _sender (ev w) /\
  _input_sender (ev w') = _input_sender (ev w).

(** A coroutine body that raises nothing, and one that raises at most
    [ValueError]. *)
Definition raises_nothing {A} (m : M A) : Prop :=
  forall w, exists a, (m w).1 = Ok a.

Definition raises_only_ValueError {A} (m : M A) : Prop :=
  forall w e, (m w).1 = Raise e -> e = ValueError.

(** ** More readings of the log and of the event *)

Definition is_edit (c : Call) : bool :=
  match c with
  | CEditMessage _ _ _ _ => true
  | _ => false
  end.

Definition is_get_input_chat (c : Call) : bool :=
  match c with
  | CGetInputChat => true
  | _ => false
  end.

(** The calls that send, edit or delete a message. *)
Definition is_transport (c : Call) : bool :=
  is_send c || is_edit c || is_delete c.




(** The log only grows. *)
Definition log_extends (w w' : World) : Prop :=
  exists rest, log w' = log w ++ rest.


(** The log entry of a call issued in world [w]. *)
Definition entry_of (c : Call) (w : World) : LogEntry :=
  {| le_call := c; le_answered := _answered (ev w) |}.

(** ** A scenario

    Query 42 on message 7 of chat 100, payload "buy", clicked by user 55;
    the snapshot knows user 55 and chat 100. *)

Module Scenario.

Definition at_once {A} (r : Result A) : Response A :=
  {| suspended := false; outcome := r |}.

Definition after_wait {A} (r : Result A) : Response A :=
  {| suspended := true; outcome := r |}.

Definition buy : list Byte.byte := [Byte.x62; Byte.x75; Byte.x79].

Definition the_query : UpdateBotCallbackQuery :=
  {| query_id := 42; user_id := 55; peer := PeerChat 100; msg_id := 7;
     chat_instance := 0; data := Some buy; game_short_name := None |}.

Definition alice : Entity := {| ent_id := 55; ent_name := "alice" |}.
Definition alice_full : Entity := {| ent_id := 55; ent_name := "Alice A." |}.
Definition shop : Entity := {| ent_id := 100; ent_name := "shop" |}.

Definition snapshot : gmap Z Entity := <[55 := alice]> (<[100 := shop]> ∅).

Definition the_update : Update :=
  {| upd_body := UpdBotCallbackQuery the_query; upd_entities := snapshot |}.

(** The event as the dispatcher hands it to the handler: built from the
    update, with the chat looked up in the snapshot. *)
Definition event : Event :=
  {| _chat_peer := PeerChat 100; _message_id := 7;
     _entities := snapshot; _chat := Some shop;
     query := the_query; _sender_id := 55;
     _input_sender := None; _sender := None; _message := None;
     _answered := false |}.

(** The same event when the snapshot came without the sender. *)
Definition event_without_sender : Event :=
  with_entities (<[100 := shop]> ∅) event.

Definition input_shop : InputPeer :=
  {| ip_name := "InputPeerChat"; ip_id := 100; ip_access_hash := None |}.
Definition input_with_hash : InputPeer :=
  {| ip_name := "InputPeerChannel"; ip_id := 100;
     ip_access_hash := Some 987654321 |}.
Definition input_without_hash : InputPeer :=
  {| ip_name := "InputPeerChannel"; ip_id := 100;
     ip_access_hash := Some 0 |}.
Definition input_alice : InputPeer :=
  {| ip_name := "InputPeerUser"; ip_id := 55;
     ip_access_hash := Some 1234 |}.
Definition input_alice_cached : InputPeer :=
  {| ip_name := "InputPeerUser"; ip_id := 55;
     ip_access_hash := Some 5678 |}.

Definition the_message : Message :=
  {| m_id := 7; m_sender := Some alice_full;
     m_input_sender := Some input_alice |}.

(** Collaborators that all succeed: the input chat is already known, the
    requests go over the network. *)
Definition env : Env :=
  {| is_channel := false;
     get_input_chat := fun _ => at_once (Ok (Some input_shop));
     get_input_peer := fun _ => Ok input_with_hash;
     session_get_input_entity := fun _ _ => Ok input_alice_cached;
     get_messages := fun _ _ _ => after_wait (Ok (Some the_message));
     invoke := fun _ _ => after_wait (Ok (PyBool true));
     send_message := fun _ _ _ _ => after_wait (Ok (PyObj "Message"));
     edit_message := fun _ _ _ _ _ => after_wait (Ok (PyObj "Message"));
     delete_messages :=
       fun _ _ _ _ _ => after_wait (Ok (PyObj "AffectedMessages")) |}.

Definition with_get_input_peer (f : option Entity -> Result InputPeer)
    (e : Env) : Env :=
  {| is_channel := is_channel e;
     get_input_chat := get_input_chat e;
     get_input_peer := f;
     session_get_input_entity := session_get_input_entity e;
     get_messages := get_messages e;
     invoke := invoke e;
     send_message := send_message e;
     edit_message := edit_message e;
     delete_messages := delete_messages e |}.

Definition with_session (f : list LogEntry -> Z -> Result InputPeer)
    (e : Env) : Env :=
  {| is_channel := is_channel e;
     get_input_chat := get_input_chat e;
     get_input_peer := get_input_peer e;
     session_get_input_entity := f;
     get_messages := get_messages e;
     invoke := invoke e;
     send_message := send_message e;
     edit_message := edit_message e;
     delete_messages := delete_messages e |}.

Definition with_get_messages
    (f : list LogEntry -> option InputPeer -> Z ->
         Response (option Message))
    (e : Env) : Env :=
  {| is_channel := is_channel e;
     get_input_chat := get_input_chat e;
     get_input_peer := get_input_peer e;
     session_get_input_entity := session_get_input_entity e;
     get_messages := f;
     invoke := invoke e;
     send_message := send_message e;
     edit_message := edit_message e;
     delete_messages := delete_messages e |}.

Definition with_send_message
    (f : list LogEntry -> option InputPeer -> list PyVal ->
         gmap string PyVal -> Response PyVal)
    (e : Env) : Env :=
  {| is_channel := is_channel e;
     get_input_chat := get_input_chat e;
     get_input_peer := get_input_peer e;
     session_get_input_entity := session_get_input_entity e;
     get_messages := get_messages e;
     invoke := invoke e;
     send_message := f;
     edit_message := edit_message e;
     delete_messages := delete_messages e |}.

(** The message is gone: the fetch reports not-found. *)
Definition env_message_gone : Env :=
  with_get_messages (fun _ _ _ => after_wait (Raise ValueError)) env.

(** The fetch reports not-found once, then finds the message. *)
Definition env_message_late : Env :=
  with_get_messages
    (fun l _ _ => match fetches l with
                  | [] => after_wait (Raise ValueError)
                  | _ => after_wait (Ok (Some the_message))
                  end) env.

(** The chat gives an input peer without access hash and the session
    does not know the sender. *)
Definition env_no_hash : Env :=
  with_get_input_peer (fun _ => Ok input_without_hash)
    (with_session (fun _ _ => Raise ValueError) env).

(** As [env_no_hash], and the message is gone too. *)
Definition env_nothing_known : Env :=
  with_get_messages (fun _ _ _ => after_wait (Raise ValueError)) env_no_hash.

(** As [env_no_hash], and the fetch fails on the server side. *)
Definition env_fetch_refused : Env :=
  with_get_messages (fun _ _ _ => after_wait (Raise RPCError)) env_no_hash.

(** As [env_no_hash], but the session knows the sender from its second
    lookup on. *)
Definition env_session_learns : Env :=
  with_session
    (fun l _ => if existsb (fun en => is_session_call (le_call en)) l
                then Ok input_alice_cached
                else Raise ValueError) env_no_hash.

(** [send_message] has no parameter [parse_mod]: a call with that
    keyword raises [TypeError] before anything is sent or awaited. *)
Definition env_send_rejects : Env :=
  with_send_message
    (fun _ _ _ kwargs => match kwargs !! "parse_mod" with
                         | Some _ => at_once (Raise TypeError)
                         | None => after_wait (Ok (PyObj "Message"))
                         end) env.


(** More collaborators and events for the scenario. *)

Definition with_is_channel (b : bool) (e : Env) : Env :=
  {| is_channel := b;
     get_input_chat := get_input_chat e;
     get_input_peer := get_input_peer e;
     session_get_input_entity := session_get_input_entity e;
     get_messages := get_messages e;
     invoke := invoke e;
     send_message := send_message e;
     edit_message := edit_message e;
     delete_messages := delete_messages e |}.

Definition with_get_input_chat
    (f : list LogEntry -> Response (option InputPeer)) (e : Env) : Env :=
  {| is_channel := is_channel e;
     get_input_chat := f;
     get_input_peer := get_input_peer e;
     session_get_input_entity := session_get_input_entity e;
     get_messages := get_messages e;
     invoke := invoke e;
     send_message := send_message e;
     edit_message := edit_message e;
     delete_messages := delete_messages e |}.

(** The event happened in a channel whose input chat is known. *)
Definition env_channel : Env := with_is_channel true env.

(** In a channel whose input chat cannot be found. *)
Definition env_channel_unknown : Env :=
  with_is_channel true
    (with_get_input_chat (fun _ => after_wait (Raise ValueError)) env).

(** In a channel, and the connection drops while the chat is looked up. *)
Definition env_channel_offline : Env :=
  with_is_channel true
    (with_get_input_chat (fun _ => after_wait (Raise ConnectionError)) env).

(** The fetch finds no message under the id and returns [None]. *)
Definition env_fetch_nothing : Env :=
  with_get_messages (fun _ _ _ => after_wait (Ok None)) env.

(** The chat is the bot's own: its input peer has no access hash
    attribute. *)
Definition input_self : InputPeer :=
  {| ip_name := "InputPeerSelf"; ip_id := 0; ip_access_hash := None |}.

Definition env_self : Env :=
  with_get_input_peer (fun _ => Ok input_self)
    (with_session (fun _ _ => Raise ValueError) env).

(** No input peer can be made of the chat. *)
Definition env_peer_fails : Env :=
  with_get_input_peer (fun _ => Raise TypeError) env.

(** As [env_no_hash], but the session's storage fails. *)
Definition env_session_breaks : Env :=
  with_session (fun _ _ => Raise ConnectionError) env_no_hash.

(** A message whose sender is not known. *)
Definition anonymous_message : Message :=
  {| m_id := 7; m_sender := None; m_input_sender := None |}.

(** The event with that message in its slot already. *)
Definition event_with_message : Event :=
  with_message (Some anonymous_message) event.

End Scenario.

(** * Properties *)

(** ** The event loop *)

Lemma with_finished_twice f g w :
  with_finished f (with_finished g w) = with_finished f w.
Proof. reflexivity. Qed.

Lemma answer_when_answered env loop message cache_time url alert w :
  _answered (ev w) = true ->
  answer env loop message cache_time url alert w = (Ok PyNone, w).
Proof.
  intros Hset. unfold answer, bind, self, ret. cbn. now rewrite Hset.
Qed.

Lemma answer_when_unanswered env loop message cache_time url alert w :
  _answered (ev w) = false ->
  answer env loop message cache_time url alert w =
    let req := answer_request (ev w) message cache_time url alert in
    let r := invoke env (log w) req in
    let w1 := record (CInvoke req) (with_ev (with_answered true) w) in
    (outcome r, if suspended r then loop w1 else w1).
Proof.
  intros Hunset. unfold answer, bind, self, ret. cbn. now rewrite Hunset.
Qed.

(** Once the latch is set the queued acknowledgments do nothing. *)
Lemma run_tasks_answered env tasks : forall w,
  _answered (ev w) = true ->
  run_tasks env tasks w =
    with_finished (finished w ++ map (fun _ : Coroutine => Ok PyNone) tasks) w.
Proof.
  induction tasks as [|[message cache_time url alert] tasks IH];
    intros w Hset; cbn [run_tasks map].
  - destruct w; unfold with_finished; cbn. now rewrite app_nil_r.
  - unfold run_coroutine. rewrite answer_when_answered by assumption.
    rewrite IH by assumption. rewrite with_finished_twice. cbn.
    now rewrite <- app_assoc.
Qed.

(** With the latch unset, the first queued acknowledgment sets it and
    sends the request; the others do nothing. *)
Lemma run_tasks_unanswered env message cache_time url alert tasks w :
  _answered (ev w) = false ->
  run_tasks env (CoAnswer message cache_time url alert :: tasks) w =
    let req := answer_request (ev w) message cache_time url alert in
    let w1 := record (CInvoke req) (with_ev (with_answered true) w) in
    with_finished
      (finished w ++ outcome (invoke env (log w) req)
                       :: map (fun _ : Coroutine => Ok PyNone) tasks) w1.
Proof.
  intros Hunset. cbn [run_tasks]. unfold run_coroutine.
  rewrite answer_when_unanswered by assumption. cbn zeta.
  assert (Hsame : forall (b : bool) (x : World), (if b then x else x) = x)
    by (now intros []).
  rewrite Hsame. rewrite run_tasks_answered by reflexivity.
  rewrite with_finished_twice. cbn. now rewrite <- app_assoc.
Qed.

Lemma event_loop_answered env w :
  _answered (ev w) = true ->
  event_loop env w =
    with_finished (finished w ++ map (fun _ : Coroutine => Ok PyNone) (pending w))
      (with_pending [] w).
Proof.
  intros Hset. unfold event_loop. now rewrite run_tasks_answered.
Qed.

Lemma event_loop_idle env w : pending w = [] -> event_loop env w = w.
Proof.
  intros Hidle. unfold event_loop. rewrite Hidle. destruct w; cbn in *.
  now subst.
Qed.

Lemma event_loop_pending env w : pending (event_loop env w) = [].
Proof.
  unfold event_loop. destruct (_answered (ev w)) eqn:Hlatch.
  - now rewrite run_tasks_answered.
  - destruct (pending w) as [|[message cache_time url alert] tasks];
      [reflexivity|].
    now rewrite run_tasks_unanswered.
Qed.

(** The loop sets the latch as soon as it has an acknowledgment to start. *)
Lemma event_loop_sets_latch env w :
  pending w <> [] -> _answered (ev (event_loop env w)) = true.
Proof.
  intros Hbusy. unfold event_loop. destruct (_answered (ev w)) eqn:Hlatch.
  - now rewrite run_tasks_answered.
  - destruct (pending w) as [|[message cache_time url alert] tasks];
      [congruence|].
    now rewrite run_tasks_unanswered.
Qed.

(** The loop touches no field of the event but the latch. *)
Lemma event_loop_ev env w :
  ev (event_loop env w) = ev w \/
  ev (event_loop env w) = with_answered true (ev w).
Proof.
  unfold event_loop. destruct (_answered (ev w)) eqn:Hlatch.
  - left. now rewrite run_tasks_answered.
  - destruct (pending w) as [|[message cache_time url alert] tasks].
    + now left.
    + right. now rewrite run_tasks_unanswered.
Qed.

(** ** Relations kept by every step

    [R] is a preorder on worlds kept by the elementary steps: logging a
    call other than the acknowledgment request, queueing and finishing
    tasks, assigning the sender slots, and the latch-then-request pair of
    [answer].  Then every method keeps it, and so does every sequence of
    method calls. *)

Section Steps.

Variable R : World -> World -> Prop.
Hypothesis R_refl : forall w, R w w.
Hypothesis R_trans : forall w1 w2 w3, R w1 w2 -> R w2 w3 -> R w1 w3.

Lemma steps_ret {A} (a : A) : steps R (ret a).
Proof. intros w. apply R_refl. Qed.

Lemma steps_self : steps R self.
Proof. intros w. apply R_refl. Qed.

Lemma steps_eval {A} (r : Result A) : steps R (eval r).
Proof. intros w. apply R_refl. Qed.

Lemma steps_bind {A B} (m : M A) (k : A -> M B) :
  steps R m -> (forall a, steps R (k a)) -> steps R (bind m k).
Proof.
  intros Hm Hk w. unfold bind. specialize (Hm w).
  destruct (m w) as [[a|e] w'] eqn:Hrun; cbn in *.
  - apply R_trans with w'; [assumption | apply Hk].
  - assumption.
Qed.

Lemma steps_try {A} (body handler : M A) :
  steps R body -> steps R handler ->
  steps R (try_except_ValueError body handler).
Proof.
  intros Hbody Hhandler w. unfold try_except_ValueError.
  specialize (Hbody w).
  destruct (body w) as [[a|[]] w'] eqn:Hrun; cbn in *; try assumption.
  apply R_trans with w'; [assumption | apply Hhandler].
Qed.

Variable env : Env.

Hypothesis R_record : forall c w, is_ack c = false -> R w (record c w).
Hypothesis R_pending : forall p w, R w (with_pending p w).
Hypothesis R_finished : forall f w, R w (with_finished f w).
Hypothesis R_sender : forall x w, R w (with_ev (with_sender x) w).
Hypothesis R_input_sender :
  forall x w, R w (with_ev (with_input_sender x) w).
Hypothesis R_ack : forall req w,
  _answered (ev w) = false ->
  R w (record (CInvoke req) (with_ev (with_answered true) w)).

Lemma steps_answer loop message cache_time url alert :
  (forall w, R w (loop w)) ->
  steps R (answer env loop message cache_time url alert).
Proof.
  intros Hloop w. destruct (_answered (ev w)) eqn:Hlatch.
  - rewrite answer_when_answered by assumption. apply R_refl.
  - rewrite answer_when_unanswered by assumption. cbn.
    destruct (suspended _).
    + eapply R_trans; [apply R_ack; assumption | apply Hloop].
    + apply R_ack; assumption.
Qed.

Lemma steps_run_tasks tasks : forall w, R w (run_tasks env tasks w).
Proof.
  induction tasks as [|[message cache_time url alert] tasks IH];
    intros w; cbn [run_tasks].
  - apply R_refl.
  - unfold run_coroutine.
    pose proof (steps_answer (fun w => w) message cache_time url alert
                  R_refl w) as Hfirst.
    destruct (answer env _ message cache_time url alert w) as [r w'].
    cbn in Hfirst.
    eapply R_trans; [exact Hfirst|].
    eapply R_trans; [apply (R_finished (finished w' ++ [r]))|apply IH].
Qed.

Lemma steps_event_loop w : R w (event_loop env w).
Proof.
  unfold event_loop.
  eapply R_trans; [apply (R_pending [])|apply steps_run_tasks].
Qed.

Lemma steps_await {A} c (f : list LogEntry -> Response A) :
  is_ack c = false -> steps R (await (event_loop env) c f).
Proof.
  intros Hc w. unfold await. cbn. destruct (suspended _).
  - eapply R_trans; [exact (R_record c _ Hc)|apply steps_event_loop].
  - exact (R_record c _ Hc).
Qed.

Lemma steps_call {A} c (f : list LogEntry -> Result A) :
  is_ack c = false -> steps R (call c f).
Proof. intros Hc w. unfold call. cbn. exact (R_record c _ Hc). Qed.

Lemma steps_create_task co : steps R (create_task co).
Proof.
  intros w. unfold create_task. cbn.
  eapply R_trans; [apply (R_record (CCreateTask co)); reflexivity|].
  apply R_pending.
Qed.

Lemma steps_assign_sender x : steps R (assign (with_sender x)).
Proof. intros w. apply R_sender. Qed.

Lemma steps_assign_input_sender x : steps R (assign (with_input_sender x)).
Proof. intros w. apply R_input_sender. Qed.

Lemma steps_get_message_chat :
  steps R (get_message_chat env (event_loop env)).
Proof.
  unfold get_message_chat. destruct (is_channel env).
  - now apply steps_await.
  - apply steps_ret.
Qed.

Lemma steps_action a args kwargs : steps R (run_action env a args kwargs).
Proof.
  destruct a; cbn [run_action]; unfold respond, reply, edit, delete;
    repeat first
      [ apply steps_create_task | apply steps_self
      | apply steps_await; reflexivity
      | apply steps_bind; [|intros ?] ].
Qed.

(** [get_message] also assigns the message slot. *)
Lemma steps_get_message :
  (forall x w, R w (with_ev (with_message x) w)) ->
  steps R (get_message env (event_loop env)).
Proof.
  intros R_message. unfold get_message.
  apply steps_bind; [apply steps_self|intros this].
  destruct (_message this); [apply steps_ret|].
  apply steps_try; [|apply steps_ret].
  repeat first
    [ apply steps_get_message_chat | apply steps_self | apply steps_ret
    | apply steps_await; reflexivity
    | (intros w; apply R_message)
    | apply steps_bind; [|intros ?] ].
Qed.

Hypothesis R_get_message : steps R (get_message env (event_loop env)).

Lemma steps_refetch_sender :
  steps R (_refetch_sender env (event_loop env)).
Proof.
  unfold _refetch_sender.
  apply steps_bind; [apply steps_self|intros this].
  apply steps_bind; [apply steps_assign_sender|intros _].
  apply steps_bind; [apply steps_self|intros this'].
  destruct (_sender this'); [|apply steps_ret].
  apply steps_bind; [apply steps_eval|intros ip].
  apply steps_bind; [apply steps_assign_input_sender|intros _].
  destruct (negb _); [|apply steps_ret].
  apply steps_try.
  - apply steps_bind; [now apply steps_call|intros ip'].
    apply steps_assign_input_sender.
  - apply steps_bind; [apply R_get_message|intros [m|]].
    + apply steps_bind; [apply steps_assign_sender|intros _].
      apply steps_assign_input_sender.
    + apply steps_ret.
Qed.

Lemma steps_run_op o w : R w (run_op env o w).
Proof.
  destruct o; cbn [run_op].
  - apply R_get_message.
  - apply steps_refetch_sender.
  - apply steps_answer, steps_event_loop.
  - apply steps_action.
Qed.

Lemma steps_run_ops ops : forall w, R w (run_ops env ops w).
Proof.
  unfold run_ops. induction ops as [|o ops IH]; intros w; cbn.
  - apply R_refl.
  - eapply R_trans; [apply steps_run_op|apply IH].
Qed.

End Steps.

(** ** The latch and the cached message across method calls *)

Lemma acks_record c w :
  acks (log (record c w)) =
    acks (log w) ++
      (if is_ack c then [{| le_call := c; le_answered := _answered (ev w) |}]
       else []).
Proof.
  unfold acks, record. cbn. rewrite filter_app. f_equal.
  destruct (is_ack c) eqn:Hc.
  - now rewrite filter_cons_True by (cbn; assumption).
  - rewrite filter_cons_False by (cbn; congruence). reflexivity.
Qed.

Lemma keeps_latch_refl w : keeps_latch w w.
Proof. now split. Qed.

Lemma keeps_latch_trans w1 w2 w3 :
  keeps_latch w1 w2 -> keeps_latch w2 w3 -> keeps_latch w1 w3.
Proof. intros [H1 H2] [H3 H4]. split; auto. Qed.

Lemma keeps_latch_record c w : is_ack c = false -> keeps_latch w (record c w).
Proof.
  intros Hc. split; [trivial|]. unfold ack_inv.
  rewrite acks_record, Hc, app_nil_r. trivial.
Qed.

Lemma keeps_latch_ack req w :
  _answered (ev w) = false ->
  keeps_latch w (record (CInvoke req) (with_ev (with_answered true) w)).
Proof.
  intros Hunset. split; [reflexivity|]. unfold ack_inv.
  rewrite acks_record. rewrite Hunset. cbn. rewrite length_app. cbn.
  fold (acks (log w)). intros ->. reflexivity.
Qed.

Lemma keeps_latch_get_message env :
  steps keeps_latch (get_message env (event_loop env)).
Proof.
  apply steps_get_message;
    first [ exact keeps_latch_refl | exact keeps_latch_trans
          | exact keeps_latch_record | exact keeps_latch_ack
          | (intros; now split) ].
Qed.

(** No sequence of method calls resets the latch or sends a second
    acknowledgment request. *)
Lemma latch_kept env ops w : keeps_latch w (run_ops env ops w).
Proof.
  apply steps_run_ops;
    first [ exact keeps_latch_refl | exact keeps_latch_trans
          | exact keeps_latch_record | exact keeps_latch_ack
          | exact (keeps_latch_get_message env)
          | (intros; now split) ].
Qed.

Lemma keeps_message_refl w : keeps_message w w.
Proof. now intros m. Qed.

Lemma keeps_message_trans w1 w2 w3 :
  keeps_message w1 w2 -> keeps_message w2 w3 -> keeps_message w1 w3.
Proof. intros H1 H2 m Hm. auto. Qed.

(** [get_message] assigns the slot only when it found it empty. *)
Lemma keeps_message_get_message env loop :
  steps keeps_message (get_message env loop).
Proof.
  intros w m Hm. unfold get_message, bind, self. cbn. rewrite Hm. cbn.
  assumption.
Qed.

(** No sequence of method calls changes a cached message. *)
Lemma message_kept env ops w : keeps_message w (run_ops env ops w).
Proof.
  apply steps_run_ops;
    first [ exact keeps_message_refl | exact keeps_message_trans
          | exact (keeps_message_get_message env (event_loop env))
          | (intros; now intros m) ].
Qed.

(** ** [answer] *)

(** C1.  [answer] is a one-shot latch.  Whatever the arguments and the
    collaborators: after the call [_answered] is set, also when the
    request failed.  If it was set before, the call returns [None] and
    leaves the world as it was: no request, nothing logged.  If it was
    not, the call sends exactly one request, carrying the query id, the
    cache time, the alert flag, the message and the url, at a moment when
    [_answered] already reads true, and returns what the request returned
    or raised.  After any further method calls on the event, [answer]
    still returns [None] without a request; and starting from an event
    with the latch unset and no request sent, no sequence of method calls
    sends more than one request. *)
Theorem answer_one_shot_latch env message cache_time url alert w :
  let run := answer env (event_loop env) message cache_time url alert w in
  let req := answer_request (ev w) message cache_time url alert in
  _answered (ev run.2) = true /\
  (if _answered (ev w)
   then run = (Ok PyNone, w)
   else run.1 = outcome (invoke env (log w) req) /\
        log run.2 =
          log w ++ [{| le_call := CInvoke req; le_answered := true |}]) /\
  (forall ops message' cache_time' url' alert',
     let w' := run_ops env ops run.2 in
     answer env (event_loop env) message' cache_time' url' alert' w' =
       (Ok PyNone, w')) /\
  (forall ops e,
     _answered e = false ->
     (length (acks (log (run_ops env ops (new_world e)))) <= 1)%nat).
Proof.
  cbn zeta.
  assert (Hafter :
    _answered
      (ev (answer env (event_loop env) message cache_time url alert w).2)
    = true).
  { destruct (_answered (ev w)) eqn:Hlatch.
    - now rewrite answer_when_answered.
    - rewrite answer_when_unanswered by assumption. cbn [fst snd].
      destruct (suspended _); [|reflexivity].
      now rewrite event_loop_answered. }
  split; [exact Hafter|]. split; [|split].
  - destruct (_answered (ev w)) eqn:Hlatch.
    + now apply answer_when_answered.
    + rewrite answer_when_unanswered by assumption. cbn [fst snd].
      split; [reflexivity|].
      destruct (suspended _); [|reflexivity].
      now rewrite event_loop_answered.
  - intros ops message' cache_time' url' alert'.
    apply answer_when_answered.
    now apply (latch_kept env ops).
  - intros ops e Hunset.
    destruct (latch_kept env ops (new_world e)) as [_ Hcount].
    unfold ack_inv in Hcount at 2. rewrite Hcount.
    + destruct (_answered (ev (run_ops env ops (new_world e))));
        [apply le_n | apply Nat.le_0_l].
    + unfold ack_inv. cbn. now rewrite Hunset.
Qed.

Lemma answer_one_shot_latch_witness :
  let refuse := fun _ _ => Scenario.after_wait (Raise RPCError) in
  let env := with_invoke refuse Scenario.env in
  let run := answer env (event_loop env) (Some "done"%string) 30 None true
               (new_world Scenario.event) in
  run.1 = Raise RPCError /\
  _answered (ev run.2) = true /\
  log run.2 =
    [{| le_call :=
          CInvoke {| r_query_id := 42; r_cache_time := 30; r_alert := true;
                     r_message := Some "done"%string; r_url := None |};
        le_answered := true |}] /\
  answer env (event_loop env) None 0 None false run.2 = (Ok PyNone, run.2).
Proof.
  cbn zeta.
  pose proof (answer_one_shot_latch
                (with_invoke (fun _ _ => Scenario.after_wait (Raise RPCError))
                   Scenario.env)
                (Some "done"%string) 30 None true (new_world Scenario.event))
    as (Hset & [Hout Hlog] & Hlater & _).
  split; [exact Hout|]. split; [exact Hset|]. split; [exact Hlog|].
  exact (Hlater [] None 0 None false).
Defined.

(** ** [get_message] *)

Lemma event_loop_query env w : query (ev (event_loop env w)) = query (ev w).
Proof. now destruct (event_loop_ev env w) as [-> | ->]. Qed.

Lemma event_loop_message env w :
  _message (ev (event_loop env w)) = _message (ev w).
Proof. now destruct (event_loop_ev env w) as [-> | ->]. Qed.

(** The loop only adds to the log, and only acknowledgment requests. *)
Lemma event_loop_log env w :
  exists extra,
    log (event_loop env w) = log w ++ extra /\
    Forall (fun en => is_ack (le_call en) = true) extra.
Proof.
  unfold event_loop. destruct (_answered (ev w)) eqn:Hlatch.
  - exists []. rewrite run_tasks_answered by assumption. cbn.
    now rewrite app_nil_r.
  - destruct (pending w) as [|[message cache_time url alert] tasks].
    + exists []. cbn. now rewrite app_nil_r.
    + rewrite run_tasks_unanswered by assumption. cbn.
      eexists. split; [reflexivity|]. now repeat constructor.
Qed.

(** What an awaited call other than the acknowledgment request leaves. *)
Lemma await_world {A} env c (f : list LogEntry -> Response A) w :
  let run := await (event_loop env) c f w in
  run.1 = outcome (f (log w)) /\
  query (ev run.2) = query (ev w) /\
  _message (ev run.2) = _message (ev w) /\
  exists extra,
    log run.2 =
      log w ++ {| le_call := c; le_answered := _answered (ev w) |} :: extra /\
    Forall (fun en => is_ack (le_call en) = true) extra.
Proof.
  unfold await. cbn [fst snd]. split; [reflexivity|].
  destruct (suspended _).
  - rewrite event_loop_query, event_loop_message.
    do 2 (split; [reflexivity|]).
    destruct (event_loop_log env (record c w)) as (extra & -> & Hacks).
    exists extra. split; [|assumption]. cbn. now rewrite <- app_assoc.
  - do 2 (split; [reflexivity|]). exists []. now split.
Qed.

Lemma get_message_chat_world env w :
  let run := get_message_chat env (event_loop env) w in
  query (ev run.2) = query (ev w) /\ _message (ev run.2) = _message (ev w).
Proof.
  unfold get_message_chat. destruct (is_channel env).
  - destruct (await_world env CGetInputChat (get_input_chat env) w)
      as (_ & Hquery & Hmessage & _). now split.
  - now split.
Qed.

Lemma get_message_cached env loop w m :
  _message (ev w) = Some m -> get_message env loop w = (Ok (Some m), w).
Proof.
  intros Hm. unfold get_message, bind, self. cbn. now rewrite Hm.
Qed.

(** The run of [get_message] on an empty slot, once the chat is there. *)
Lemma get_message_uncached env w chat w1 :
  _message (ev w) = None ->
  get_message_chat env (event_loop env) w = (Ok chat, w1) ->
  get_message env (event_loop env) w =
    let c := CGetMessages chat (msg_id (query (ev w))) in
    let run :=
      await (event_loop env) c
        (fun l => get_messages env l chat (msg_id (query (ev w)))) w1 in
    match run.1 with
    | Ok m => (Ok m, with_ev (with_message m) run.2)
    | Raise ValueError => (Ok None, run.2)
    | Raise e => (Raise e, run.2)
    end.
Proof.
  intros Hempty Hchat.
  pose proof (get_message_chat_world env w) as [Hquery _].
  rewrite Hchat in Hquery. cbn [snd] in Hquery.
  unfold get_message, bind at 1, self. cbn [ev]. rewrite Hempty.
  unfold try_except_ValueError, bind at 1. rewrite Hchat.
  unfold bind at 1. cbn [self]. rewrite Hquery.
  unfold bind at 1. cbn zeta.
  destruct (await _ _ _ w1) as [[m|e] w2]; cbn [fst snd].
  - reflexivity.
  - now destruct e.
Qed.

(** C5.  [get_message] answers from the cache: with a message in the
    slot it returns that message and leaves the world as it was, so
    nothing is fetched.  With the slot empty and the chat at hand: when
    the fetch reports not-found ([ValueError]) the call returns [None] and
    raises nothing; when the fetch returns a message the call stores it in
    the slot and returns it, and every later call, after whatever other
    method calls, returns the same message without touching the world. *)
Theorem get_message_cache env w :
  (forall m,
     _message (ev w) = Some m ->
     get_message env (event_loop env) w = (Ok (Some m), w)) /\
  (forall chat w1,
     _message (ev w) = None ->
     get_message_chat env (event_loop env) w = (Ok chat, w1) ->
     let fetch := get_messages env (log w1) chat (msg_id (query (ev w))) in
     let run := get_message env (event_loop env) w in
     (outcome fetch = Raise ValueError -> run.1 = Ok None) /\
     (forall m,
        outcome fetch = Ok (Some m) ->
        run.1 = Ok (Some m) /\
        _message (ev run.2) = Some m /\
        forall ops,
          let w' := run_ops env ops run.2 in
          get_message env (event_loop env) w' = (Ok (Some m), w'))).
Proof.
  split; [intros m; apply get_message_cached|].
  intros chat w1 Hempty Hchat. cbn zeta.
  rewrite (get_message_uncached env w chat w1 Hempty Hchat). cbn zeta.
  destruct (await_world env (CGetMessages chat (msg_id (query (ev w))))
              (fun l => get_messages env l chat (msg_id (query (ev w)))) w1)
    as (-> & _). split.
  - now intros ->.
  - intros m ->. cbn [fst snd]. split; [reflexivity|].
    split; [reflexivity|]. intros ops.
    apply get_message_cached. now apply (message_kept env ops).
Qed.

Lemma get_message_cache_witness :
  let w := new_world Scenario.event in
  (* the message is gone *)
  (get_message Scenario.env_message_gone
     (event_loop Scenario.env_message_gone) w).1 = Ok None /\
  (* the message is there: fetched once, then served from the slot *)
  let run := get_message Scenario.env (event_loop Scenario.env) w in
  run.1 = Ok (Some Scenario.the_message) /\
  get_message Scenario.env (event_loop Scenario.env) run.2 =
    (Ok (Some Scenario.the_message), run.2).
Proof.
  cbn zeta. split; [|split].
  - refine (proj1 (proj2 (get_message_cache Scenario.env_message_gone
                             (new_world Scenario.event))
                     None (new_world Scenario.event) _ _) _);
      reflexivity.
  - refine (proj1 (proj2 (proj2 (get_message_cache Scenario.env
                                    (new_world Scenario.event))
                            None (new_world Scenario.event) _ _)
                     Scenario.the_message _));
      reflexivity.
  - refine (proj1 (get_message_cache Scenario.env _) Scenario.the_message _).
    reflexivity.
Defined.

(** C10.  A failed [get_message] is not cached.  With the slot empty,
    when the fetch reports not-found the call returns [None] and the slot
    is still empty; the next call then issues the fetch again and returns
    what that fetch gives. *)
Theorem get_message_failure_not_cached env w chat w1 :
  _message (ev w) = None ->
  get_message_chat env (event_loop env) w = (Ok chat, w1) ->
  outcome (get_messages env (log w1) chat (msg_id (query (ev w))))
    = Raise ValueError ->
  let run := get_message env (event_loop env) w in
  run.1 = Ok None /\
  _message (ev run.2) = None /\
  forall chat' w1',
    get_message_chat env (event_loop env) run.2 = (Ok chat', w1') ->
    let ids := msg_id (query (ev w)) in
    let again := get_message env (event_loop env) run.2 in
    (exists extra,
       log again.2 =
         log w1' ++ {| le_call := CGetMessages chat' ids;
                       le_answered := _answered (ev w1') |} :: extra /\
       Forall (fun en => is_ack (le_call en) = true) extra) /\
    again.1 =
      match outcome (get_messages env (log w1') chat' ids) with
      | Ok m => Ok m
      | Raise ValueError => Ok None
      | Raise e => Raise e
      end.
Proof.
  intros Hempty Hchat Hgone. cbn zeta.
  pose proof (get_message_chat_world env w) as [Hquery1 Hmessage1].
  rewrite Hchat in Hquery1, Hmessage1. cbn [snd] in Hquery1, Hmessage1.
  rewrite (get_message_uncached env w chat w1 Hempty Hchat). cbn zeta.
  destruct (await_world env (CGetMessages chat (msg_id (query (ev w))))
              (fun l => get_messages env l chat (msg_id (query (ev w)))) w1)
    as (Hout & Hquery2 & Hmessage2 & _).
  rewrite Hout, Hgone. cbn [fst snd].
  split; [reflexivity|].
  assert (Hstill : _message
            (ev (await (event_loop env)
                   (CGetMessages chat (msg_id (query (ev w))))
                   (fun l => get_messages env l chat (msg_id (query (ev w))))
                   w1).2) = None) by congruence.
  split; [exact Hstill|].
  intros chat' w1' Hchat'.
  rewrite (get_message_uncached env _ chat' w1' Hstill Hchat'). cbn zeta.
  rewrite Hquery2, Hquery1.
  destruct (await_world env (CGetMessages chat' (msg_id (query (ev w))))
              (fun l => get_messages env l chat' (msg_id (query (ev w)))) w1')
    as (Hout' & _ & _ & extra & Hlog & Hacks).
  rewrite Hout'.
  destruct (outcome (get_messages env (log w1') chat' (msg_id (query (ev w)))))
    as [m|e]; [|destruct e]; cbn [fst snd];
    (split; [exists extra; split; [exact Hlog|exact Hacks] | reflexivity]).
Qed.

Lemma get_message_failure_not_cached_witness :
  let env := Scenario.env_message_late in
  let w := new_world Scenario.event in
  let run := get_message env (event_loop env) w in
  run.1 = Ok None /\
  _message (ev run.2) = None /\
  (get_message env (event_loop env) run.2).1 = Ok (Some Scenario.the_message).
Proof.
  cbn zeta.
  pose proof (get_message_failure_not_cached Scenario.env_message_late
                (new_world Scenario.event) None (new_world Scenario.event)
                eq_refl eq_refl eq_refl) as (Hnone & Hslot & Hagain).
  split; [exact Hnone|]. split; [exact Hslot|].
  exact (proj2 (Hagain None _ eq_refl)).
Defined.

(** ** [_refetch_sender] *)

Lemma raises_nothing_only {A} (m : M A) :
  raises_nothing m -> raises_only_ValueError m.
Proof. intros Hm w e Hraise. destruct (Hm w) as [a Ha]. congruence. Qed.

Lemma raises_nothing_ret {A} (a : A) : raises_nothing (ret a).
Proof. intros w. now exists a. Qed.

Lemma raises_nothing_self : raises_nothing self.
Proof. intros w. now exists (ev w). Qed.

Lemma raises_nothing_assign f : raises_nothing (assign f).
Proof. intros w. now exists tt. Qed.

Lemma raises_nothing_bind {A B} (m : M A) (k : A -> M B) :
  raises_nothing m -> (forall a, raises_nothing (k a)) ->
  raises_nothing (bind m k).
Proof.
  intros Hm Hk w. unfold bind. destruct (Hm w) as [a Ha].
  destruct (m w) as [[a'|e] w']; cbn in Ha; [|discriminate]. apply Hk.
Qed.

Lemma raises_only_bind {A B} (m : M A) (k : A -> M B) :
  raises_only_ValueError m -> (forall a, raises_only_ValueError (k a)) ->
  raises_only_ValueError (bind m k).
Proof.
  intros Hm Hk w e. unfold bind. specialize (Hm w).
  destruct (m w) as [[a|e'] w']; cbn in *.
  - apply Hk.
  - intros [= <-]. now apply Hm.
Qed.

Lemma raises_nothing_try {A} (body handler : M A) :
  raises_only_ValueError body -> raises_nothing handler ->
  raises_nothing (try_except_ValueError body handler).
Proof.
  intros Hbody Hhandler w. unfold try_except_ValueError.
  specialize (Hbody w).
  destruct (body w) as [[a|e] w']; cbn in *.
  - now exists a.
  - rewrite (Hbody e eq_refl). apply Hhandler.
Qed.

Lemma raises_only_await {A} loop c (f : list LogEntry -> Response A) :
  (forall l e, outcome (f l) = Raise e -> e = ValueError) ->
  raises_only_ValueError (await loop c f).
Proof. intros Hf w e. unfold await. cbn. apply Hf. Qed.

Lemma raises_only_call {A} c (f : list LogEntry -> Result A) :
  (forall l e, f l = Raise e -> e = ValueError) ->
  raises_only_ValueError (call c f).
Proof. intros Hf w e. unfold call. cbn. apply Hf. Qed.

(** [get_message] raises nothing when the chat getter and the fetch fail
    with [ValueError] only. *)
Lemma get_message_raises_nothing env loop :
  (forall l e, outcome (get_input_chat env l) = Raise e -> e = ValueError) ->
  (forall l chat ids e,
     outcome (get_messages env l chat ids) = Raise e -> e = ValueError) ->
  raises_nothing (get_message env loop).
Proof.
  intros Hchat Hfetch. unfold get_message.
  apply raises_nothing_bind; [apply raises_nothing_self|intros this].
  destruct (_message this); [apply raises_nothing_ret|].
  apply raises_nothing_try; [|apply raises_nothing_ret].
  apply raises_only_bind.
  - unfold get_message_chat. destruct (is_channel env).
    + now apply raises_only_await.
    + apply raises_nothing_only, raises_nothing_ret.
  - intros chat. apply raises_only_bind;
      [apply raises_nothing_only, raises_nothing_self|intros this'].
    apply raises_only_bind.
    + apply raises_only_await. intros l e. apply Hfetch.
    + intros m. apply raises_nothing_only.
      apply raises_nothing_bind; [apply raises_nothing_assign|intros _].
      apply raises_nothing_bind; [apply raises_nothing_self|intros ?].
      apply raises_nothing_ret.
Qed.

Lemma refetch_sender_absent env loop w :
  _entities (ev w) !! sender_id (ev w) = None ->
  _refetch_sender env loop w = (Ok tt, with_ev (with_sender None) w).
Proof.
  intros Habsent. unfold _refetch_sender, bind, self, assign. cbn.
  now rewrite Habsent.
Qed.

(** The run of the chain once the snapshot and the chat gave their
    answers: the two slots are assigned, and the escalation depends on
    the access hash. *)
Lemma refetch_sender_found env loop w e ip :
  _entities (ev w) !! sender_id (ev w) = Some e ->
  get_input_peer env (_chat (ev w)) = Ok ip ->
  _refetch_sender env loop w =
    let w1 :=
      with_ev (with_input_sender (Some ip)) (with_ev (with_sender (Some e)) w)
    in
    if negb (truthy (getattr_access_hash ip (PyBool true))) then
      try_except_ValueError
        (bind (call (CSessionGetInputEntity (_sender_id (ev w)))
                 (fun l => session_get_input_entity env l (_sender_id (ev w))))
           (fun ip' => assign (with_input_sender (Some ip'))))
        (bind (get_message env loop)
           (fun m =>
              match m with
              | Some m =>
                  bind (assign (with_sender (m_sender m)))
                    (fun _ => assign (with_input_sender (m_input_sender m)))
              | None => ret tt
              end)) w1
    else (Ok tt, w1).
Proof.
  intros Hfound Hpeer.
  unfold _refetch_sender, bind at 1, self. cbn [ev].
  unfold bind at 1, assign at 1. cbn. rewrite Hfound.
  unfold bind at 1, eval. cbn. rewrite Hpeer.
  unfold bind at 1, assign at 1. cbn.
  destruct (negb _); reflexivity.
Qed.

(** C3.  The chain tries its sources in order and stops at the first that
    serves.  If the snapshot has no entity under the sender id, the call
    returns without raising, the sender slot is empty, the input-sender
    slot is as it was, and no collaborator has been called.  If the
    snapshot has the sender and the input peer derived from the chat has
    a non-zero access hash, the call returns with both slots filled from
    these without any call logged: neither the session nor the fetch is
    asked.  If the access hash is zero and the session knows the sender,
    the session's input entity is taken and the fetch is not tried. *)
Theorem refetch_sender_order env w :
  let run := _refetch_sender env (event_loop env) w in
  (_entities (ev w) !! sender_id (ev w) = None ->
   run.1 = Ok tt /\
   _sender (ev run.2) = None /\
   _input_sender (ev run.2) = _input_sender (ev w) /\
   log run.2 = log w) /\
  (forall e ip h,
     _entities (ev w) !! sender_id (ev w) = Some e ->
     get_input_peer env (_chat (ev w)) = Ok ip ->
     ip_access_hash ip = Some h -> h <> 0 ->
     run.1 = Ok tt /\
     _sender (ev run.2) = Some e /\
     _input_sender (ev run.2) = Some ip /\
     log run.2 = log w) /\
  (forall e ip ip',
     _entities (ev w) !! sender_id (ev w) = Some e ->
     get_input_peer env (_chat (ev w)) = Ok ip ->
     ip_access_hash ip = Some 0 ->
     session_get_input_entity env (log w) (_sender_id (ev w)) = Ok ip' ->
     run.1 = Ok tt /\
     _sender (ev run.2) = Some e /\
     _input_sender (ev run.2) = Some ip' /\
     log run.2 =
       log w ++ [{| le_call := CSessionGetInputEntity (_sender_id (ev w));
                    le_answered := _answered (ev w) |}]).
Proof.
  cbn zeta. split; [|split].
  - intros Habsent. now rewrite refetch_sender_absent.
  - intros e ip h Hfound Hpeer Hhash Hnonzero.
    rewrite (refetch_sender_found env _ w e ip Hfound Hpeer). cbn zeta.
    unfold getattr_access_hash. rewrite Hhash. cbn [truthy].
    apply Z.eqb_neq in Hnonzero. rewrite Hnonzero. now cbn.
  - intros e ip ip' Hfound Hpeer Hhash Hsession.
    rewrite (refetch_sender_found env _ w e ip Hfound Hpeer). cbn zeta.
    unfold getattr_access_hash. rewrite Hhash. cbn [truthy Z.eqb negb].
    unfold try_except_ValueError, bind, call. cbn. rewrite Hsession.
    now cbn.
Qed.

Lemma refetch_sender_order_witness :
  (* the snapshot came without the sender *)
  (_refetch_sender Scenario.env (event_loop Scenario.env)
     (new_world Scenario.event_without_sender)).1 = Ok tt /\
  (* the chat's input peer has an access hash *)
  (let run := _refetch_sender Scenario.env (event_loop Scenario.env)
                (new_world Scenario.event) in
   _input_sender (ev run.2) = Some Scenario.input_with_hash /\
   log run.2 = []) /\
  (* it has none, and the session knows the sender *)
  (let env := Scenario.with_get_input_peer
                (fun _ => Ok Scenario.input_without_hash) Scenario.env in
   let run := _refetch_sender env (event_loop env)
                (new_world Scenario.event) in
   _input_sender (ev run.2) = Some Scenario.input_alice_cached).
Proof.
  split; [|split].
  - refine (proj1 (proj1 (refetch_sender_order Scenario.env
                            (new_world Scenario.event_without_sender)) _)).
    reflexivity.
  - pose proof (proj1 (proj2 (refetch_sender_order Scenario.env
                                (new_world Scenario.event)))
                  Scenario.alice Scenario.input_with_hash 987654321
                  eq_refl eq_refl eq_refl) as Hrun.
    cbn zeta. split; apply Hrun; discriminate.
  - pose proof (proj2 (proj2 (refetch_sender_order
                                (Scenario.with_get_input_peer
                                   (fun _ => Ok Scenario.input_without_hash)
                                   Scenario.env)
                                (new_world Scenario.event)))
                  Scenario.alice Scenario.input_without_hash
                  Scenario.input_alice_cached
                  eq_refl eq_refl eq_refl eq_refl) as Hrun.
    apply Hrun.
Defined.

Lemma keeps_senders_refl w : keeps_senders w w.
Proof. now split. Qed.

Lemma keeps_senders_trans w1 w2 w3 :
  keeps_senders w1 w2 -> keeps_senders w2 w3 -> keeps_senders w1 w3.
Proof. intros [H1 H2] [H3 H4]. split; congruence. Qed.

(** [get_message] leaves the sender slots alone. *)
Lemma keeps_senders_get_message env :
  steps keeps_senders (get_message env (event_loop env)).
Proof.
  apply steps_get_message;
    first [ exact keeps_senders_refl | exact keeps_senders_trans
          | (intros; now split) ].
Qed.

(** C4, counterexample.  The sender is in the snapshot, the chat gives an
    input peer without access hash, the session does not know the sender,
    and the fetch is refused by the server: the error goes through
    [get_message] and through the handler of the chain, up to the
    caller. *)
Lemma refetch_sender_can_raise :
  (_refetch_sender Scenario.env_fetch_refused
     (event_loop Scenario.env_fetch_refused)
     (new_world Scenario.event)).1 = Raise RPCError.
Proof. reflexivity. Qed.

(** C4, amended.  The chain raises nothing when the input peer is derived
    from the chat without error and the session, the chat getter and the
    fetch fail with [ValueError] only.  A session that does not know the
    sender makes the chain fall through to [get_message]: with a message,
    the slots take the message's sender and input sender; without one,
    they keep the snapshot's entity and the chat's input peer. *)
Theorem refetch_sender_raises_nothing env w :
  (forall e, get_input_peer env (_chat (ev w)) <> Raise e) ->
  (forall l key e,
     session_get_input_entity env l key = Raise e -> e = ValueError) ->
  (forall l e, outcome (get_input_chat env l) = Raise e -> e = ValueError) ->
  (forall l chat ids e,
     outcome (get_messages env l chat ids) = Raise e -> e = ValueError) ->
  let run := _refetch_sender env (event_loop env) w in
  run.1 = Ok tt /\
  (forall e ip,
     _entities (ev w) !! sender_id (ev w) = Some e ->
     get_input_peer env (_chat (ev w)) = Ok ip ->
     ip_access_hash ip = Some 0 ->
     session_get_input_entity env (log w) (_sender_id (ev w))
       = Raise ValueError ->
     let w2 :=
       record (CSessionGetInputEntity (_sender_id (ev w)))
         (with_ev (with_input_sender (Some ip))
            (with_ev (with_sender (Some e)) w)) in
     match (get_message env (event_loop env) w2).1 with
     | Ok (Some m) =>
         _sender (ev run.2) = m_sender m /\
         _input_sender (ev run.2) = m_input_sender m
     | _ =>
         _sender (ev run.2) = Some e /\ _input_sender (ev run.2) = Some ip
     end).
Proof.
  intros Hpeer Hsession Hchat Hfetch. cbn zeta.
  pose proof (get_message_raises_nothing env (event_loop env) Hchat Hfetch)
    as Hmessage.
  split.
  - destruct (_entities (ev w) !! sender_id (ev w)) as [e|] eqn:Hfound;
      [|now rewrite refetch_sender_absent].
    destruct (get_input_peer env (_chat (ev w))) as [ip|x] eqn:Hip;
      [|now destruct (Hpeer x)].
    rewrite (refetch_sender_found env _ w e ip Hfound Hip). cbn zeta.
    destruct (negb _); [|reflexivity].
    match goal with
    | |- (try_except_ValueError ?body ?handler ?w1).1 = _ =>
        destruct (raises_nothing_try body handler) with (w := w1)
          as [[] Hrun]; [| |exact Hrun]
    end.
    + apply raises_only_bind.
      * apply raises_only_call. intros l x. apply Hsession.
      * intros ip'. apply raises_nothing_only, raises_nothing_assign.
    + apply raises_nothing_bind; [exact Hmessage|intros [m|]].
      * apply raises_nothing_bind; [apply raises_nothing_assign|intros _].
        apply raises_nothing_assign.
      * apply raises_nothing_ret.
  - intros e ip Hfound Hip Hhash Hunknown.
    rewrite (refetch_sender_found env _ w e ip Hfound Hip). cbn zeta.
    unfold getattr_access_hash. rewrite Hhash. cbn [truthy Z.eqb negb].
    unfold try_except_ValueError, bind, call.
    cbn -[get_message event_loop]. rewrite Hunknown.
    match goal with
    | |- context [get_message env (event_loop env) ?w2] =>
        pose proof (keeps_senders_get_message env w2) as [Hs Hi];
        destruct (Hmessage w2) as [m Hm];
        destruct (get_message env (event_loop env) w2) as [r w3]
    end.
    cbn [fst snd] in *. subst r. destruct m as [m|]; cbn.
    + now split.
    + now split.
Qed.

Lemma refetch_sender_raises_nothing_witness :
  let env := Scenario.env_nothing_known in
  let run := _refetch_sender env (event_loop env)
               (new_world Scenario.event) in
  run.1 = Ok tt /\
  _sender (ev run.2) = Some Scenario.alice /\
  _input_sender (ev run.2) = Some Scenario.input_without_hash.
Proof.
  cbn zeta.
  assert (Hvalue : forall e : Exn, ValueError = e -> e = ValueError)
    by (intros e He; symmetry; exact He).
  pose proof (refetch_sender_raises_nothing Scenario.env_nothing_known
                (new_world Scenario.event)) as Hrun.
  cbn zeta in Hrun.
  destruct Hrun as [Hok Hslots].
  - intros e. discriminate.
  - intros l key e [= He]. now apply Hvalue.
  - intros l e. discriminate.
  - intros l chat ids e [= He]. now apply Hvalue.
  - split; [exact Hok|].
    exact (Hslots Scenario.alice Scenario.input_without_hash
             eq_refl eq_refl eq_refl eq_refl).
Defined.

(** ** [respond], [reply], [edit] and [delete] *)

(** The common shape of the four actions: queue the acknowledgment, await
    the input chat, then make the action's own call. *)
Lemma action_run env a args kwargs w :
  run_action env a args kwargs w =
    let rc :=
      await (event_loop env) CGetInputChat (get_input_chat env) (scheduled w)
    in
    match rc.1 with
    | Ok chat =>
        await (event_loop env) (action_call a (ev w) chat args kwargs)
          (action_response env a (ev w) chat args kwargs) rc.2
    | Raise e => (Raise e, rc.2)
    end.
Proof.
  cbn zeta.
  pose proof (await_world env CGetInputChat (get_input_chat env) (scheduled w))
    as (_ & Hquery & _).
  cbn zeta in Hquery. change (query (ev (scheduled w))) with (query (ev w))
    in Hquery.
  destruct a; cbn [run_action action_call action_response];
    unfold respond, reply, edit, delete;
    unfold bind at 1, create_task; fold (scheduled w);
    cbn [fst snd].
  - unfold bind.
    destruct (await _ CGetInputChat _ (scheduled w)) as [[chat|e] w1];
      reflexivity.
  - unfold bind, self. cbn [ev].
    destruct (await _ CGetInputChat _ (scheduled w)) as [[chat|e] w1];
      reflexivity.
  - unfold bind, self.
    destruct (await _ CGetInputChat _ (scheduled w)) as [[chat|e] w1];
      cbn [fst snd] in *; [|reflexivity].
    now rewrite Hquery.
  - unfold bind, self.
    destruct (await _ CGetInputChat _ (scheduled w)) as [[chat|e] w1];
      cbn [fst snd] in *; [|reflexivity].
    now rewrite Hquery.
Qed.

Lemma calls_app kind l1 l2 :
  calls kind (l1 ++ l2) = calls kind l1 ++ calls kind l2.
Proof. unfold calls. now rewrite map_app, filter_app. Qed.

Lemma calls_acks kind extra :
  (forall c, is_ack c = true -> kind c = false) ->
  Forall (fun en => is_ack (le_call en) = true) extra ->
  calls kind extra = [].
Proof.
  intros Hkind Hacks. unfold calls.
  induction Hacks as [|en extra Hen _ IH]; [reflexivity|]. cbn [map].
  rewrite filter_cons_False; [exact IH|].
  rewrite (Hkind _ Hen). discriminate.
Qed.

(** The calls of a kind other than the acknowledgment request that an
    awaited call adds to the log: itself, if it is of the kind. *)
Lemma await_calls {A} env kind c (f : list LogEntry -> Response A) w :
  (forall c, is_ack c = true -> kind c = false) ->
  calls kind (log (await (event_loop env) c f w).2) =
    calls kind (log w) ++ (if kind c then [c] else []).
Proof.
  intros Hkind.
  destruct (await_world env c f w) as (_ & _ & _ & extra & -> & Hacks).
  rewrite calls_app. f_equal.
  change (?x :: extra) with ([x] ++ extra). rewrite calls_app.
  rewrite (calls_acks kind extra Hkind Hacks), app_nil_r.
  unfold calls. cbn [map le_call]. destruct (kind c) eqn:Hc.
  - now rewrite filter_cons_True.
  - rewrite filter_cons_False; [reflexivity|]. congruence.
Qed.

Lemma scheduled_calls kind w :
  kind (CCreateTask answer_default) = false ->
  calls kind (log (scheduled w)) = calls kind (log w).
Proof.
  intros Hkind. unfold scheduled. cbn [log with_pending record with_log].
  rewrite calls_app. unfold calls at 2. cbn [map le_call].
  rewrite filter_cons_False by congruence. cbn. now rewrite app_nil_r.
Qed.

(** The calls of a kind that an action adds to the log: its own call, if
    it is of the kind and the input chat came back. *)
Lemma action_calls env kind a args kwargs w :
  (forall c, is_ack c = true -> kind c = false) ->
  kind (CCreateTask answer_default) = false ->
  kind CGetInputChat = false ->
  calls kind (log (run_action env a args kwargs w).2) =
    calls kind (log w) ++
      match outcome (get_input_chat env (log (scheduled w))) with
      | Ok chat =>
          let c := action_call a (ev w) chat args kwargs in
          if kind c then [c] else []
      | Raise _ => []
      end.
Proof.
  intros Hkind Htask Hchat. rewrite action_run. cbn zeta.
  pose proof (await_calls env kind CGetInputChat (get_input_chat env)
                (scheduled w) Hkind) as Hfirst.
  rewrite Hchat, app_nil_r, (scheduled_calls kind w Htask) in Hfirst.
  destruct (await_world env CGetInputChat (get_input_chat env) (scheduled w))
    as (Hout & _).
  rewrite Hout. destruct (outcome (get_input_chat env (log (scheduled w))))
    as [chat|e]; cbn [fst snd].
  - rewrite await_calls by exact Hkind. now rewrite Hfirst.
  - now rewrite Hfirst, app_nil_r.
Qed.

(** C7.  [reply] is [respond] with the keyword argument [reply_to] set to
    the id of the event's message: the two runs are equal, whatever the
    caller passed under [reply_to] is replaced, the other keyword
    arguments are the caller's, and the one message sent goes to the chat
    that [get_input_chat] returned. *)
Theorem reply_forces_reply_to env args kwargs w :
  let forced := <["reply_to" := PyInt (message_id (ev w))]> kwargs in
  let run := reply env (event_loop env) args kwargs w in
  run = respond env (event_loop env) args forced w /\
  forced !! "reply_to" = Some (PyInt (message_id (ev w))) /\
  (forall key, key <> "reply_to" -> forced !! key = kwargs !! key) /\
  calls is_send (log run.2) =
    calls is_send (log w) ++
      match outcome (get_input_chat env (log (scheduled w))) with
      | Ok chat => [CSendMessage chat args forced]
      | Raise _ => []
      end.
Proof.
  cbn zeta. split; [reflexivity|]. split; [apply lookup_insert_eq|].
  split; [intros key Hkey; now apply lookup_insert_ne|].
  change (reply env (event_loop env) args kwargs w)
    with (run_action env AReply args kwargs w).
  rewrite (action_calls env is_send AReply args kwargs w);
    [|now intros []|reflexivity|reflexivity].
  reflexivity.
Qed.

Lemma reply_forces_reply_to_witness :
  let w := (reply Scenario.env (event_loop Scenario.env) [PyStr "ok"]
              (<["reply_to" := PyInt 1]> ∅)
              (new_world Scenario.event)).2 in
  calls is_send (log w) =
    [CSendMessage (Some Scenario.input_shop) [PyStr "ok"]
       (<["reply_to" := PyInt 7]> ∅)] /\
  calls is_ack (log w) =
    [CInvoke {| r_query_id := 42; r_cache_time := 0; r_alert := false;
                r_message := None; r_url := None |}].
Proof.
  cbn zeta. split; [|reflexivity].
  pose proof (reply_forces_reply_to Scenario.env [PyStr "ok"]
                (<["reply_to" := PyInt 1]> ∅) (new_world Scenario.event))
    as (_ & _ & _ & Hsent).
  rewrite Hsent. reflexivity.
Defined.

(** C8.  [delete] asks for the deletion of one message: the delete
    requests it adds to the log are the single request whose list of
    message ids is the one-element list of the event's message id, or
    none at all when [get_input_chat] raised. *)
Theorem delete_single_message env args kwargs w :
  let run := delete env (event_loop env) args kwargs w in
  calls is_delete (log run.2) =
    calls is_delete (log w) ++
      match outcome (get_input_chat env (log (scheduled w))) with
      | Ok chat => [CDeleteMessages chat [message_id (ev w)] args kwargs]
      | Raise _ => []
      end.
Proof.
  cbn zeta.
  change (delete env (event_loop env) args kwargs w)
    with (run_action env ADelete args kwargs w).
  rewrite (action_calls env is_delete ADelete args kwargs w);
    [|now intros []|reflexivity|reflexivity].
  reflexivity.
Qed.

Lemma delete_single_message_witness :
  calls is_delete
    (log (delete Scenario.env (event_loop Scenario.env) [] ∅
            (new_world Scenario.event)).2) =
    [CDeleteMessages (Some Scenario.input_shop) [7] [] ∅].
Proof.
  exact (delete_single_message Scenario.env [] ∅ (new_world Scenario.event)).
Defined.

(** ** [build] *)

(** C9.  [build] makes an event out of an UpdateBotCallbackQuery only.
    Whenever it returns an event, the update was one, and the event is
    what the filter let through of the event built from the query and the
    update's entities; for an update of any other type it returns [None]
    and raises nothing, whatever the filter. *)
Theorem build_only_callback_query _filter_event update :
  (forall event,
     build _filter_event update = Ok (Some event) ->
     exists q,
       upd_body update = UpdBotCallbackQuery q /\
       _filter_event (with_entities (upd_entities update) (Event_init q))
         = Ok (Some event)) /\
  ((forall q, upd_body update <> UpdBotCallbackQuery q) ->
   build _filter_event update = Ok None).
Proof.
  unfold build. split.
  - intros event Hbuilt.
    destruct (upd_body update) as [q| | |]; try discriminate.
    now exists q.
  - intros Hother.
    destruct (upd_body update) as [q| | |]; try reflexivity.
    now destruct (Hother q).
Qed.

Lemma build_only_callback_query_witness :
  (exists q,
     upd_body Scenario.the_update = UpdBotCallbackQuery q /\
     Ok (Some (with_entities Scenario.snapshot (Event_init q)))
       = Ok (Some (with_entities Scenario.snapshot
                     (Event_init Scenario.the_query)))) /\
  build (fun event => Ok (Some event))
    {| upd_body := UpdNewMessage Scenario.the_message;
       upd_entities := Scenario.snapshot |} = Ok None.
Proof.
  split.
  - exact (proj1 (build_only_callback_query (fun event => Ok (Some event))
                    Scenario.the_update) _ eq_refl).
  - apply (proj2 (build_only_callback_query (fun event => Ok (Some event))
                    {| upd_body := UpdNewMessage Scenario.the_message;
                       upd_entities := Scenario.snapshot |})).
    intros q. discriminate.
Defined.

(** ** The three lazy slots *)

(** C2, counterexample.  Two runs of the chain in a row.  The first
    finds the sender in the snapshot, gets an input peer without access
    hash from the chat, is turned down by the session and takes the
    sender and input sender of the fetched message.  The second puts the
    snapshot's entity back in the sender slot and, the session knowing
    the sender by now, the session's input entity in the other. *)
Lemma sender_slots_overwritten :
  let env := Scenario.env_session_learns in
  let w1 := run_op env ORefetchSender (new_world Scenario.event) in
  let w2 := run_op env ORefetchSender w1 in
  _sender (ev w1) = Some Scenario.alice_full /\
  _sender (ev w2) = Some Scenario.alice /\
  Scenario.alice <> Scenario.alice_full /\
  _input_sender (ev w1) = Some Scenario.input_alice /\
  _input_sender (ev w2) = Some Scenario.input_alice_cached /\
  Scenario.input_alice_cached <> Scenario.input_alice.
Proof. cbn zeta. repeat split; try reflexivity; discriminate. Qed.

(** C2, amended.  The message slot is written once: a message in the slot
    is still there after any sequence of method calls.  The sender slots
    are written by every run of the chain, whatever they hold: without
    the sender in the snapshot the sender slot is emptied; with it, and
    an input peer from the chat that needs no escalation, both slots take
    the snapshot's entity and the chat's input peer. *)
Theorem message_slot_written_once env w :
  (forall ops m,
     _message (ev w) = Some m ->
     _message (ev (run_ops env ops w)) = Some m) /\
  let w' := run_op env ORefetchSender w in
  (_entities (ev w) !! sender_id (ev w) = None -> _sender (ev w') = None) /\
  (forall e ip,
     _entities (ev w) !! sender_id (ev w) = Some e ->
     get_input_peer env (_chat (ev w)) = Ok ip ->
     truthy (getattr_access_hash ip (PyBool true)) = true ->
     _sender (ev w') = Some e /\ _input_sender (ev w') = Some ip).
Proof.
  split; [intros ops m; apply (message_kept env ops)|].
  cbn [run_op]. split.
  - intros Habsent. now rewrite refetch_sender_absent.
  - intros e ip Hfound Hpeer Hhash.
    rewrite (refetch_sender_found env _ w e ip Hfound Hpeer). cbn zeta.
    rewrite Hhash. now cbn.
Qed.

Lemma message_slot_written_once_witness :
  let env := Scenario.env_session_learns in
  let w1 := run_op env ORefetchSender (new_world Scenario.event) in
  _message (ev w1) = Some Scenario.the_message /\
  _message (ev (run_ops env
                  [ORefetchSender; OGetMessage; OAction ADelete [] ∅;
                   OAnswer None 0 None false; ORefetchSender] w1))
    = Some Scenario.the_message.
Proof.
  cbn zeta. split; [reflexivity|].
  apply (proj1 (message_slot_written_once Scenario.env_session_learns _)).
  reflexivity.
Defined.

(** ** The acknowledgment scheduled by the actions *)

(** What the acknowledgment request gets back changes nothing but the
    outcomes kept in the tasks. *)
Lemma event_loop_same env f w w' :
  same_but_finished w w' ->
  same_but_finished (event_loop (with_invoke f env) w) (event_loop env w').
Proof.
  destruct w as [e l p d], w' as [e' l' p' d'].
  unfold same_but_finished. cbn [ev log pending].
  intros (<- & <- & <-). unfold event_loop. cbn [pending with_pending ev log].
  destruct (_answered e) eqn:Hlatch.
  - rewrite !run_tasks_answered by assumption. now cbn.
  - destruct p as [|[message cache_time url alert] tasks]; [now cbn|].
    rewrite !run_tasks_unanswered by assumption. now cbn.
Qed.

Lemma await_same {A} env f c (g : list LogEntry -> Response A) w w' :
  same_but_finished w w' ->
  let run := await (event_loop (with_invoke f env)) c g w in
  let run' := await (event_loop env) c g w' in
  run.1 = run'.1 /\ same_but_finished run.2 run'.2.
Proof.
  intros Hsame. unfold await. cbn [fst snd].
  assert (Hrecord : same_but_finished (record c w) (record c w')).
  { destruct Hsame as (He & Hl & Hp). unfold same_but_finished, record.
    cbn. now rewrite He, Hl, Hp. }
  destruct Hsame as (_ & <- & _). split; [reflexivity|].
  destruct (suspended _); [now apply event_loop_same|exact Hrecord].
Qed.

(** The two states an action can be in with respect to its task: the loop
    has run and started it, or it is still queued and the event is as the
    action found it. *)
Lemma await_task env {A} c (g : list LogEntry -> Response A) w0 w :
  let run := await (event_loop env) c g w in
  (_answered (ev w) = true /\ pending w = [] ->
   _answered (ev run.2) = true /\ pending run.2 = []) /\
  (ev w = ev w0 /\ pending w <> [] ->
   if suspended (g (log w))
   then _answered (ev run.2) = true /\ pending run.2 = []
   else ev run.2 = ev w0 /\ pending run.2 = pending w).
Proof.
  unfold await. cbn [fst snd]. split.
  - intros [Hset Hidle]. destruct (suspended _); [|now split].
    rewrite event_loop_idle by exact Hidle. now split.
  - intros [Hev Hbusy]. destruct (suspended _); [|now split].
    split; [now apply event_loop_sets_latch|apply event_loop_pending].
Qed.

(** C6, counterexample.  An action that never gave way to the loop: the
    input chat was at hand and [send_message] turned down a misspelt
    keyword on the spot.  The action is over, and the acknowledgment has
    not started.  And in a run where everything goes well, the latch
    still reads false at the moment the message is sent. *)
Lemma acknowledgment_not_started :
  (let run := respond Scenario.env_send_rejects
                (event_loop Scenario.env_send_rejects) [PyStr "ok"]
                (<["parse_mod" := PyStr "md"]> ∅)
                (new_world Scenario.event) in
   run.1 = Raise TypeError /\
   _answered (ev run.2) = false /\
   pending run.2 = [answer_default] /\
   calls is_ack (log run.2) = []) /\
  (let run := respond Scenario.env (event_loop Scenario.env) [PyStr "ok"] ∅
                (new_world Scenario.event) in
   log run.2 !! 2%nat =
     Some {| le_call :=
               CSendMessage (Some Scenario.input_shop) [PyStr "ok"] ∅;
             le_answered := false |}).
Proof. cbn zeta. repeat split; reflexivity. Qed.

Lemma same_but_finished_refl w : same_but_finished w w.
Proof. now repeat split. Qed.

Lemma action_response_with_invoke env f a this chat args kwargs :
  action_response (with_invoke f env) a this chat args kwargs =
    action_response env a this chat args kwargs.
Proof. now destruct a. Qed.

(** C6, amended.  Each of [respond], [reply], [edit] and [delete] queues
    the acknowledgment before anything else: the [create_task] entry is
    the first the action adds to the log, and the action's own call, made
    once the input chat is there, comes after it.  Queueing does not set
    [_answered].  If one of the action's two awaits gave way to the loop,
    the loop has started the task: when the action is over the latch is
    set and the queue is empty.  If none did, the event is as the action
    found it and the task is still queued.  What the acknowledgment
    request gets back never reaches the action: with any other answer to
    that request the action returns or raises the same, and leaves the
    same event, log and queue. *)
Theorem action_schedules_acknowledgment env a args kwargs w :
  let run := run_action env a args kwargs w in
  let task := {| le_call := CCreateTask answer_default;
                 le_answered := _answered (ev w) |} in
  (exists rest,
     log run.2 = log w ++ task :: rest /\
     forall chat,
       outcome (get_input_chat env (log (scheduled w))) = Ok chat ->
       exists b,
         In {| le_call := action_call a (ev w) chat args kwargs;
               le_answered := b |} rest) /\
  (if gave_way env a args kwargs w
   then _answered (ev run.2) = true /\ pending run.2 = []
   else ev run.2 = ev w /\ pending run.2 = pending w ++ [answer_default]) /\
  (forall f,
     let run' := run_action (with_invoke f env) a args kwargs w in
     run'.1 = run.1 /\ same_but_finished run'.2 run.2).
Proof.
  cbn zeta.
  assert (Hbusy : pending (scheduled w) <> []).
  { unfold scheduled. cbn. now destruct (pending w). }
  pose proof (await_world env CGetInputChat (get_input_chat env) (scheduled w))
    as (Hout1 & _ & _ & extra1 & Hlog1 & _).
  pose proof (proj2 (await_task env CGetInputChat (get_input_chat env)
                       w (scheduled w)) (conj eq_refl Hbusy)) as Htask1.
  cbn zeta in Hout1, Hlog1, Htask1.
  split; [|split].
  - (* the log *)
    rewrite action_run. cbn zeta. rewrite Hout1.
    destruct (outcome (get_input_chat env (log (scheduled w))))
      as [chat|e]; cbn [fst snd].
    + match goal with
      | |- context [await _ ?c ?g ?w1] =>
          destruct (await_world env c g w1) as (_ & _ & _ & extra2 & -> & _)
      end.
      rewrite Hlog1. unfold scheduled. cbn [log with_pending record with_log].
      eexists. split.
      * rewrite <- !app_assoc. cbn [app]. reflexivity.
      * intros chat' [= <-]. eexists.
        apply in_cons, in_or_app. right. left. reflexivity.
    + rewrite Hlog1. unfold scheduled. cbn [log with_pending record with_log].
      eexists. split; [|discriminate].
      rewrite <- !app_assoc. cbn [app]. reflexivity.
  - (* the latch and the queue *)
    rewrite action_run. unfold gave_way. cbn zeta. rewrite Hout1.
    destruct (suspended (get_input_chat env (log (scheduled w)))) eqn:Hgave1;
      cbn [orb].
    + destruct (outcome (get_input_chat env (log (scheduled w))))
        as [chat|e]; cbn [fst snd]; [|exact Htask1].
      match goal with
      | |- context [await _ ?c ?g ?w1] =>
          apply (proj1 (await_task env c g w w1))
      end.
      exact Htask1.
    + assert (Hworld :
        (await (event_loop env) CGetInputChat (get_input_chat env)
           (scheduled w)).2 = record CGetInputChat (scheduled w)).
      { unfold await. cbn [snd]. now rewrite Hgave1. }
      destruct (outcome (get_input_chat env (log (scheduled w))))
        as [chat|e]; cbn [fst snd]; [|exact Htask1].
      rewrite Hworld.
      pose proof (proj2 (await_task env
                           (action_call a (ev w) chat args kwargs)
                           (action_response env a (ev w) chat args kwargs)
                           w (record CGetInputChat (scheduled w)))
                    (conj eq_refl Hbusy)) as Htask2.
      cbn zeta in Htask2.
      destruct (suspended _); exact Htask2.
  - (* the answer to the request *)
    intros f. rewrite !action_run. cbn zeta.
    pose proof (await_same env f CGetInputChat (get_input_chat env)
                  (scheduled w) (scheduled w) (same_but_finished_refl _))
      as [Hsame1 Hsame2].
    cbn zeta in Hsame1, Hsame2.
    change (get_input_chat (with_invoke f env)) with (get_input_chat env).
    rewrite Hsame1.
    destruct (await (event_loop env) CGetInputChat (get_input_chat env)
                (scheduled w)).1 as [chat|e].
    + rewrite action_response_with_invoke. now apply await_same.
    + cbn [fst snd]. now split.
Qed.

Lemma action_schedules_acknowledgment_witness :
  let refuse := fun _ _ => Scenario.after_wait (Raise RPCError) in
  let env := with_invoke refuse Scenario.env in
  let run := run_action env AReply [PyStr "ok"] ∅ (new_world Scenario.event) in
  run.1 = Ok (PyObj "Message") /\
  _answered (ev run.2) = true /\
  finished run.2 = [Raise RPCError].
Proof.
  cbn zeta.
  pose proof (action_schedules_acknowledgment Scenario.env AReply
                [PyStr "ok"] ∅ (new_world Scenario.event))
    as (_ & Hlatch & Hsame).
  specialize (Hsame (fun _ _ => Scenario.after_wait (Raise RPCError))).
  cbn zeta in Hsame. destruct Hsame as (Hresult & Hevent & _).
  split; [exact Hresult|]. split; [|reflexivity].
  rewrite Hevent. exact (proj1 Hlatch).
Defined.

(** ** What the event was built with *)





(** X2.  An event that comes out of [build] through a filter that only
    lets events through or drops them is a fresh event of the update's
    query: its [id], [message_id], [data] and [sender_id] are the query's
    [query_id], [msg_id], [data] and [user_id], its entities are the
    update's, its three slots are empty and it is not answered; the first
    [answer] on it sends one request, under the update's query id. *)
Theorem build_event_fresh _filter_event update event :
  (forall e e', _filter_event e = Ok (Some e') -> e' = e) ->
  build _filter_event update = Ok (Some event) ->
  exists q,
    upd_body update = UpdBotCallbackQuery q /\
    id_ event = query_id q /\
    message_id event = msg_id q /\
    data_ event = data q /\
    sender_id event = user_id q /\
    _entities event = upd_entities update /\
    _sender event = None /\
    _input_sender event = None /\
    _message event = None /\
    _answered event = false /\
    forall env message cache_time url alert,
      log (answer env (event_loop env) message cache_time url alert
             (new_world event)).2 =
        [{| le_call :=
              CInvoke {| r_query_id := query_id q;
                         r_cache_time := cache_time;
                         r_alert := alert;
                         r_message := message;
                         r_url := url |};
            le_answered := true |}].
Proof.
  intros Hfilter Hbuilt. unfold build in Hbuilt.
  destruct (upd_body update) as [q| | |]; try discriminate.
  apply Hfilter in Hbuilt. subst event. exists q.
  repeat (split; [reflexivity|]).
  intros env message cache_time url alert.
  rewrite answer_when_unanswered by reflexivity. cbn [fst snd].
  destruct (suspended _); [|reflexivity].
  now rewrite event_loop_idle.
Qed.

Lemma build_event_fresh_witness :
  exists q,
    upd_body Scenario.the_update = UpdBotCallbackQuery q /\
    id_ (with_entities Scenario.snapshot (Event_init Scenario.the_query))
      = query_id q /\
    message_id (with_entities Scenario.snapshot (Event_init Scenario.the_query))
      = msg_id q.
Proof.
  destruct (build_event_fresh (fun event => Ok (Some event))
              Scenario.the_update
              (with_entities Scenario.snapshot (Event_init Scenario.the_query)))
    as (q & Hbody & Hid & Hmessage & _).
  - intros e e' [= ->]. reflexivity.
  - reflexivity.
  - exists q. repeat split; assumption.
Defined.

(** ** More on the actions *)

Lemma is_transport_not_ack c : is_ack c = true -> is_transport c = false.
Proof. now destruct c. Qed.

(** X3.  [edit] makes one call that sends, edits or deletes: a call of
    [edit_message] for the event's message in the chat that
    [get_input_chat] returned, with the caller's positional and keyword
    arguments as they are; when [get_input_chat] raised it makes none. *)
Theorem edit_single_call env args kwargs w :
  let run := edit env (event_loop env) args kwargs w in
  calls is_transport (log run.2) =
    calls is_transport (log w) ++
      match outcome (get_input_chat env (log (scheduled w))) with
      | Ok chat => [CEditMessage chat (message_id (ev w)) args kwargs]
      | Raise _ => []
      end.
Proof.
  cbn zeta.
  change (edit env (event_loop env) args kwargs w)
    with (run_action env AEdit args kwargs w).
  rewrite (action_calls env is_transport AEdit args kwargs w
             is_transport_not_ack eq_refl eq_refl).
  reflexivity.
Qed.

(** X4.  [respond] makes one call that sends, edits or deletes: a call of
    [send_message] into the chat that [get_input_chat] returned, with the
    caller's positional and keyword arguments as they are, so without a
    [reply_to] the caller did not give; when [get_input_chat] raised it
    makes none. *)
Theorem respond_passes_arguments env args kwargs w :
  let run := respond env (event_loop env) args kwargs w in
  calls is_transport (log run.2) =
    calls is_transport (log w) ++
      match outcome (get_input_chat env (log (scheduled w))) with
      | Ok chat => [CSendMessage chat args kwargs]
      | Raise _ => []
      end.
Proof.
  cbn zeta.
  change (respond env (event_loop env) args kwargs w)
    with (run_action env ARespond args kwargs w).
  rewrite (action_calls env is_transport ARespond args kwargs w
             is_transport_not_ack eq_refl eq_refl).
  reflexivity.
Qed.

(** X6.  When [get_input_chat] raises, the action raises the same
    exception and sends, edits and deletes nothing.  The acknowledgment
    was queued before: it has been started, and the latch is set, if the
    await of the chat gave way to the loop; it is still queued if not. *)
Theorem action_chat_failure env a args kwargs w e :
  outcome (get_input_chat env (log (scheduled w))) = Raise e ->
  let run := run_action env a args kwargs w in
  run.1 = Raise e /\
  calls is_transport (log run.2) = calls is_transport (log w) /\
  (if suspended (get_input_chat env (log (scheduled w)))
   then _answered (ev run.2) = true /\ pending run.2 = []
   else ev run.2 = ev w /\ pending run.2 = pending w ++ [answer_default]).
Proof.
  intros Hraise. cbn zeta. split; [|split].
  - rewrite action_run. cbn zeta.
    destruct (await_world env CGetInputChat (get_input_chat env) (scheduled w))
      as (-> & _).
    now rewrite Hraise.
  - rewrite (action_calls env is_transport a args kwargs w
               is_transport_not_ack eq_refl eq_refl).
    rewrite Hraise. apply app_nil_r.
  - rewrite action_run. cbn zeta.
    destruct (await_world env CGetInputChat (get_input_chat env) (scheduled w))
      as (-> & _).
    rewrite Hraise. cbn [fst snd].
    apply (proj2 (await_task env CGetInputChat (get_input_chat env)
                    w (scheduled w))).
    split; [reflexivity|]. unfold scheduled. cbn. now destruct (pending w).
Qed.

Lemma action_chat_failure_witness :
  let env := Scenario.with_get_input_chat
               (fun _ => Scenario.after_wait (Raise ValueError))
               Scenario.env in
  let run := run_action env ADelete [] ∅ (new_world Scenario.event) in
  run.1 = Raise ValueError /\
  calls is_transport (log run.2) = [] /\
  _answered (ev run.2) = true.
Proof.
  cbn zeta.
  pose proof (action_chat_failure
                (Scenario.with_get_input_chat
                   (fun _ => Scenario.after_wait (Raise ValueError))
                   Scenario.env)
                ADelete [] ∅ (new_world Scenario.event) ValueError eq_refl)
    as (Hraise & Hnone & Hlatch).
  split; [exact Hraise|]. split; [exact Hnone|]. exact (proj1 Hlatch).
Defined.

Lemma record_calls kind c w :
  calls kind (log (record c w)) =
    calls kind (log w) ++ (if kind c then [c] else []).
Proof.
  unfold record. cbn [log with_log]. rewrite calls_app. f_equal.
  unfold calls. cbn [map le_call]. destruct (kind c) eqn:Hc.
  - now rewrite filter_cons_True.
  - rewrite filter_cons_False; [reflexivity|congruence].
Qed.

(** The loop with an unset latch and a task at the head of the queue. *)
Lemma event_loop_started env message cache_time url alert tasks w :
  _answered (ev w) = false ->
  pending w = CoAnswer message cache_time url alert :: tasks ->
  let req := answer_request (ev w) message cache_time url alert in
  log (event_loop env w) =
    log w ++ [{| le_call := CInvoke req; le_answered := true |}] /\
  _answered (ev (event_loop env w)) = true /\
  pending (event_loop env w) = [].
Proof.
  intros Hunset Hqueue. unfold event_loop. rewrite Hqueue.
  rewrite run_tasks_unanswered by assumption. now cbn.
Qed.

(** An await in a world with the latch set sends no acknowledgment. *)
Lemma await_answered {A} env c (g : list LogEntry -> Response A) w :
  _answered (ev w) = true -> is_ack c = false ->
  let run := await (event_loop env) c g w in
  calls is_ack (log run.2) = calls is_ack (log w) /\
  _answered (ev run.2) = true.
Proof.
  intros Hset Hc. unfold await. cbn [fst snd]. destruct (suspended _).
  - rewrite event_loop_answered by exact Hset. cbn [log ev with_finished
      with_pending]. rewrite record_calls, Hc, app_nil_r. now split.
  - rewrite record_calls, Hc, app_nil_r. now split.
Qed.

(** An await with the latch unset and one acknowledgment queued: it is
    sent if the await gives way, and only then. *)
Lemma await_unanswered {A} env c (g : list LogEntry -> Response A)
    message cache_time url alert w :
  _answered (ev w) = false ->
  pending w = [CoAnswer message cache_time url alert] ->
  is_ack c = false ->
  let run := await (event_loop env) c g w in
  if suspended (g (log w))
  then calls is_ack (log run.2) =
         calls is_ack (log w) ++
           [CInvoke (answer_request (ev w) message cache_time url alert)] /\
       _answered (ev run.2) = true
  else run.2 = record c w.
Proof.
  intros Hunset Hqueue Hc. unfold await. cbn [fst snd].
  destruct (suspended _); [|reflexivity].
  destruct (event_loop_started env message cache_time url alert [] (record c w)
              Hunset Hqueue) as (Hlog & Hset & _).
  split; [|exact Hset].
  rewrite Hlog, calls_app, record_calls, Hc, app_nil_r. reflexivity.
Qed.

(** X7.  The acknowledgment an action sends.  On an event that is already
    answered an action sends no acknowledgment request.  On an event not
    yet answered, with nothing queued, an action sends one request if one
    of its awaits gave way to the loop, none if not; the request carries
    the event's query id and the defaults of [answer]: cache time 0, no
    alert, no message, no url. *)
Theorem action_acknowledges env a args kwargs w :
  let run := run_action env a args kwargs w in
  (_answered (ev w) = true ->
   calls is_ack (log run.2) = calls is_ack (log w)) /\
  (_answered (ev w) = false -> pending w = [] ->
   calls is_ack (log run.2) =
     calls is_ack (log w) ++
       if gave_way env a args kwargs w
       then [CInvoke {| r_query_id := id_ (ev w); r_cache_time := 0;
                        r_alert := false; r_message := None;
                        r_url := None |}]
       else []).
Proof.
  cbn zeta. rewrite action_run. cbn zeta.
  assert (Htask : calls is_ack (log (scheduled w)) = calls is_ack (log w))
    by now apply scheduled_calls.
  destruct (await_world env CGetInputChat (get_input_chat env) (scheduled w))
    as (Hout & _).
  cbn zeta in Hout. rewrite Hout. split.
  - intros Hset.
    destruct (await_answered env CGetInputChat (get_input_chat env)
                (scheduled w) Hset eq_refl) as [Hacks Hstill].
    destruct (outcome (get_input_chat env (log (scheduled w)))) as [chat|e];
      cbn [fst snd]; [|congruence].
    match goal with
    | |- context [await _ ?c ?g ?w1] =>
        destruct (await_answered env c g w1 Hstill) as [Hacks' _];
        [now destruct a|]
    end.
    congruence.
  - intros Hunset Hidle. unfold gave_way. cbn zeta.
    assert (Hqueue : pending (scheduled w) = [answer_default])
      by (unfold scheduled; cbn; now rewrite Hidle).
    pose proof (await_unanswered env CGetInputChat (get_input_chat env)
                  None 0 None false (scheduled w) Hunset Hqueue eq_refl)
      as Hfirst.
    cbn zeta in Hfirst.
    destruct (suspended (get_input_chat env (log (scheduled w)))); cbn [orb].
    + destruct Hfirst as [Hacks Hset].
      destruct (outcome (get_input_chat env (log (scheduled w))))
        as [chat|e]; cbn [fst snd]; [|now rewrite Hacks, Htask].
      match goal with
      | |- context [await _ ?c ?g ?w1] =>
          destruct (await_answered env c g w1 Hset) as [Hacks' _];
          [now destruct a|]
      end.
      now rewrite Hacks', Hacks, Htask.
    + rewrite Hfirst.
      destruct (outcome (get_input_chat env (log (scheduled w))))
        as [chat|e]; cbn [fst snd].
      * pose proof (await_unanswered env
                      (action_call a (ev w) chat args kwargs)
                      (action_response env a (ev w) chat args kwargs)
                      None 0 None false (record CGetInputChat (scheduled w))
                      Hunset Hqueue) as Hsecond.
        cbn zeta in Hsecond.
        destruct (suspended _).
        -- destruct Hsecond as [Hacks _]; [now destruct a|].
           now rewrite Hacks, record_calls, app_nil_r, Htask.
        -- rewrite Hsecond by now destruct a.
           rewrite !record_calls, Htask.
           replace (is_ack (action_call a (ev w) chat args kwargs))
             with false by now destruct a.
           now rewrite !app_nil_r.
      * now rewrite record_calls, Htask, !app_nil_r.
Qed.

Lemma action_acknowledges_witness :
  let w := (answer Scenario.env (event_loop Scenario.env)
              (Some "thanks"%string) 0 None false
              (new_world Scenario.event)).2 in
  calls is_ack
    (log (run_action Scenario.env AEdit [PyStr "sold"] ∅ w).2) =
    [CInvoke {| r_query_id := 42; r_cache_time := 0; r_alert := false;
                r_message := Some "thanks"%string; r_url := None |}] /\
  calls is_ack
    (log (run_action Scenario.env AEdit [PyStr "sold"] ∅
            (new_world Scenario.event)).2) =
    [CInvoke {| r_query_id := 42; r_cache_time := 0; r_alert := false;
                r_message := None; r_url := None |}].
Proof.
  cbn zeta. split.
  - exact (proj1 (action_acknowledges Scenario.env AEdit [PyStr "sold"] ∅
                    (answer Scenario.env (event_loop Scenario.env)
                       (Some "thanks"%string) 0 None false
                       (new_world Scenario.event)).2) eq_refl).
  - exact (proj2 (action_acknowledges Scenario.env AEdit [PyStr "sold"] ∅
                    (new_world Scenario.event)) eq_refl eq_refl).
Defined.





(** ** What answering and acting leave alone *)








(** ** More on [get_message] *)

(** Whatever the fetch gives, the log after [get_message] is the log after
    the fetch. *)
Lemma get_message_log env w chat w1 :
  _message (ev w) = None ->
  get_message_chat env (event_loop env) w = (Ok chat, w1) ->
  log (get_message env (event_loop env) w).2 =
    log (await (event_loop env) (CGetMessages chat (msg_id (query (ev w))))
           (fun l => get_messages env l chat (msg_id (query (ev w)))) w1).2.
Proof.
  intros Hempty Hchat.
  rewrite (get_message_uncached env w chat w1 Hempty Hchat). cbn zeta.
  destruct (await _ _ _ w1) as [[m|e] w2]; [reflexivity|now destruct e].
Qed.

(** The run of [get_message] on an empty slot when the chat is not to be
    had. *)
Lemma get_message_without_chat env w e w1 :
  _message (ev w) = None ->
  get_message_chat env (event_loop env) w = (Raise e, w1) ->
  get_message env (event_loop env) w =
    (match e with ValueError => Ok None | _ => Raise e end, w1).
Proof.
  intros Hempty Hchat.
  unfold get_message, bind at 1, self. cbn [ev]. rewrite Hempty.
  unfold try_except_ValueError, bind at 1. rewrite Hchat.
  now destruct e.
Qed.

Lemma is_fetch_not_ack c : is_ack c = true -> is_fetch c = false.
Proof. now destruct c. Qed.

Lemma is_get_input_chat_not_ack c :
  is_ack c = true -> is_get_input_chat c = false.
Proof. now destruct c. Qed.

(** X9.  [get_message] resolves the chat for channels only.  With the
    slot empty: outside a channel it does not call [get_input_chat] and
    fetches the event's message id with no chat; in a channel it calls
    [get_input_chat] once and, given a chat, fetches the event's message
    id in that chat.  Either way it issues one fetch. *)
Theorem get_message_chat_resolution env w :
  _message (ev w) = None ->
  let run := get_message env (event_loop env) w in
  (is_channel env = false ->
   calls is_get_input_chat (log run.2) = calls is_get_input_chat (log w) /\
   calls is_fetch (log run.2) =
     calls is_fetch (log w) ++ [CGetMessages None (message_id (ev w))]) /\
  (is_channel env = true ->
   forall chat,
     outcome (get_input_chat env (log w)) = Ok chat ->
     calls is_get_input_chat (log run.2) =
       calls is_get_input_chat (log w) ++ [CGetInputChat] /\
     calls is_fetch (log run.2) =
       calls is_fetch (log w) ++ [CGetMessages chat (message_id (ev w))]).
Proof.
  intros Hempty. cbn zeta. split.
  - intros Hplain.
    assert (Hchat : get_message_chat env (event_loop env) w = (Ok None, w))
      by (unfold get_message_chat; now rewrite Hplain).
    rewrite (get_message_log env w None w Hempty Hchat).
    rewrite !await_calls
      by first [exact is_fetch_not_ack | exact is_get_input_chat_not_ack].
    cbn. now rewrite app_nil_r.
  - intros Hchannel chat Hfound.
    assert (Hchat : get_message_chat env (event_loop env) w =
                      (Ok chat,
                       (await (event_loop env) CGetInputChat
                          (get_input_chat env) w).2)).
    { unfold get_message_chat. rewrite Hchannel.
      destruct (await_world env CGetInputChat (get_input_chat env) w)
        as (Hout & _).
      cbn zeta in Hout. rewrite Hfound in Hout.
      destruct (await _ _ _ w) as [r w1]. cbn in Hout. now subst r. }
    rewrite (get_message_log env w chat _ Hempty Hchat).
    rewrite !await_calls
      by first [exact is_fetch_not_ack | exact is_get_input_chat_not_ack].
    cbn. now rewrite !app_nil_r.
Qed.

Lemma get_message_chat_resolution_witness :
  calls is_fetch
    (log (get_message Scenario.env (event_loop Scenario.env)
            (new_world Scenario.event)).2) = [CGetMessages None 7] /\
  calls is_fetch
    (log (get_message Scenario.env_channel (event_loop Scenario.env_channel)
            (new_world Scenario.event)).2) =
    [CGetMessages (Some Scenario.input_shop) 7].
Proof.
  split.
  - exact (proj2 (proj1 (get_message_chat_resolution Scenario.env
                           (new_world Scenario.event) eq_refl) eq_refl)).
  - exact (proj2 (proj2 (get_message_chat_resolution Scenario.env_channel
                           (new_world Scenario.event) eq_refl) eq_refl
                    (Some Scenario.input_shop) eq_refl)).
Defined.

(** X10.  [get_message] in a channel whose chat cannot be resolved.  With
    the slot empty, when [get_input_chat] raises [ValueError] the call
    returns [None]; when it raises anything else the call raises the
    same.  In both cases no fetch is issued and the slot stays empty. *)
Theorem get_message_chat_failure env w e :
  _message (ev w) = None ->
  is_channel env = true ->
  outcome (get_input_chat env (log w)) = Raise e ->
  let run := get_message env (event_loop env) w in
  run.1 = match e with ValueError => Ok None | _ => Raise e end /\
  calls is_fetch (log run.2) = calls is_fetch (log w) /\
  _message (ev run.2) = None.
Proof.
  intros Hempty Hchannel Hraise. cbn zeta.
  assert (Hchat : get_message_chat env (event_loop env) w =
                    (Raise e,
                     (await (event_loop env) CGetInputChat
                        (get_input_chat env) w).2)).
  { unfold get_message_chat. rewrite Hchannel.
    destruct (await_world env CGetInputChat (get_input_chat env) w)
      as (Hout & _).
    cbn zeta in Hout. rewrite Hraise in Hout.
    destruct (await _ _ _ w) as [r w1]. cbn in Hout. now subst r. }
  rewrite (get_message_without_chat env w e _ Hempty Hchat). cbn [fst snd].
  split; [reflexivity|]. split.
  - rewrite await_calls by exact is_fetch_not_ack. cbn. apply app_nil_r.
  - destruct (await_world env CGetInputChat (get_input_chat env) w)
      as (_ & _ & Hmessage & _).
    cbn zeta in Hmessage. congruence.
Qed.

Lemma get_message_chat_failure_witness :
  (get_message Scenario.env_channel_unknown
     (event_loop Scenario.env_channel_unknown)
     (new_world Scenario.event)).1 = Ok None /\
  (get_message Scenario.env_channel_offline
     (event_loop Scenario.env_channel_offline)
     (new_world Scenario.event)).1 = Raise ConnectionError.
Proof.
  split.
  - exact (proj1 (get_message_chat_failure Scenario.env_channel_unknown
                    (new_world Scenario.event) ValueError
                    eq_refl eq_refl eq_refl)).
  - exact (proj1 (get_message_chat_failure Scenario.env_channel_offline
                    (new_world Scenario.event) ConnectionError
                    eq_refl eq_refl eq_refl)).
Defined.

(** X11.  [get_message] caches found messages only.  With the slot empty
    and the chat at hand: when the fetch returns [None] the call returns
    [None]; when the fetch raises anything but [ValueError] the call
    raises the same.  In both cases the slot is still empty afterwards. *)
Theorem get_message_caches_found_only env w chat w1 :
  _message (ev w) = None ->
  get_message_chat env (event_loop env) w = (Ok chat, w1) ->
  let fetch := get_messages env (log w1) chat (msg_id (query (ev w))) in
  let run := get_message env (event_loop env) w in
  (outcome fetch = Ok None ->
   run.1 = Ok None /\ _message (ev run.2) = None) /\
  (forall e,
     outcome fetch = Raise e -> e <> ValueError ->
     run.1 = Raise e /\ _message (ev run.2) = None).
Proof.
  intros Hempty Hchat. cbn zeta.
  pose proof (get_message_chat_world env w) as [_ Hmessage1].
  rewrite Hchat in Hmessage1. cbn [snd] in Hmessage1.
  rewrite (get_message_uncached env w chat w1 Hempty Hchat). cbn zeta.
  destruct (await_world env (CGetMessages chat (msg_id (query (ev w))))
              (fun l => get_messages env l chat (msg_id (query (ev w)))) w1)
    as (Hout & _ & Hmessage2 & _).
  cbn zeta in Hout, Hmessage2. rewrite Hout. split.
  - intros ->. cbn [fst snd]. now split.
  - intros e -> Hother. destruct e; try (now destruct Hother);
      cbn [fst snd]; (split; [reflexivity|congruence]).
Qed.

Lemma get_message_caches_found_only_witness :
  (let run := get_message Scenario.env_fetch_nothing
                (event_loop Scenario.env_fetch_nothing)
                (new_world Scenario.event) in
   run.1 = Ok None /\ _message (ev run.2) = None) /\
  (let run := get_message Scenario.env_fetch_refused
                (event_loop Scenario.env_fetch_refused)
                (new_world Scenario.event) in
   run.1 = Raise RPCError /\ _message (ev run.2) = None).
Proof.
  split.
  - exact (proj1 (get_message_caches_found_only Scenario.env_fetch_nothing
                    (new_world Scenario.event) None (new_world Scenario.event)
                    eq_refl eq_refl) eq_refl).
  - apply (proj2 (get_message_caches_found_only Scenario.env_fetch_refused
                    (new_world Scenario.event) None (new_world Scenario.event)
                    eq_refl eq_refl) RPCError eq_refl).
    discriminate.
Defined.

(** ** More on [_refetch_sender] *)

(** X12.  Where the chain stops at the snapshot or at the chat's input
    peer, running it again changes nothing: a second run leaves the world
    of the first. *)
Theorem refetch_sender_idempotent env w :
  let w' := run_op env ORefetchSender w in
  (_entities (ev w) !! sender_id (ev w) = None ->
   run_op env ORefetchSender w' = w') /\
  (forall e ip,
     _entities (ev w) !! sender_id (ev w) = Some e ->
     get_input_peer env (_chat (ev w)) = Ok ip ->
     truthy (getattr_access_hash ip (PyBool true)) = true ->
     run_op env ORefetchSender w' = w').
Proof.
  cbn zeta. cbn [run_op]. split.
  - intros Habsent. rewrite (refetch_sender_absent env _ w Habsent).
    cbn [snd]. now rewrite refetch_sender_absent.
  - intros e ip Hfound Hpeer Hhash.
    rewrite (refetch_sender_found env _ w e ip Hfound Hpeer). cbn zeta.
    rewrite Hhash. cbn [negb snd].
    rewrite (refetch_sender_found env _
               (with_ev (with_input_sender (Some ip))
                  (with_ev (with_sender (Some e)) w)) e ip Hfound Hpeer).
    cbn zeta. rewrite Hhash. reflexivity.
Qed.

Lemma refetch_sender_idempotent_witness :
  let w' := run_op Scenario.env ORefetchSender (new_world Scenario.event) in
  _input_sender (ev w') = Some Scenario.input_with_hash /\
  run_op Scenario.env ORefetchSender w' = w'.
Proof.
  cbn zeta. split; [reflexivity|].
  exact (proj2 (refetch_sender_idempotent Scenario.env
                  (new_world Scenario.event))
           Scenario.alice Scenario.input_with_hash eq_refl eq_refl eq_refl).
Defined.

(** X13.  The fall-back of the chain takes a message that is already in
    the slot.  With a message cached, the sender in the snapshot, an
    input peer with access hash 0 and a session that does not know the
    sender, the chain returns with the message's sender and input sender
    in the slots, be they empty, and the session lookup is the only call
    it has made: nothing is fetched. *)
Theorem refetch_sender_uses_cached_message env w m e ip :
  _message (ev w) = Some m ->
  _entities (ev w) !! sender_id (ev w) = Some e ->
  get_input_peer env (_chat (ev w)) = Ok ip ->
  ip_access_hash ip = Some 0 ->
  session_get_input_entity env (log w) (_sender_id (ev w))
    = Raise ValueError ->
  let run := _refetch_sender env (event_loop env) w in
  run.1 = Ok tt /\
  _sender (ev run.2) = m_sender m /\
  _input_sender (ev run.2) = m_input_sender m /\
  log run.2 = log w ++ [entry_of (CSessionGetInputEntity (_sender_id (ev w))) w].
Proof.
  intros Hcached Hfound Hpeer Hhash Hunknown. cbn zeta.
  rewrite (refetch_sender_found env _ w e ip Hfound Hpeer). cbn zeta.
  unfold getattr_access_hash. rewrite Hhash. cbn [truthy Z.eqb negb].
  unfold try_except_ValueError, bind, call.
  cbn -[get_message event_loop]. rewrite Hunknown.
  rewrite (get_message_cached env _ _ m) by exact Hcached.
  now cbn.
Qed.

Lemma refetch_sender_uses_cached_message_witness :
  let run := _refetch_sender Scenario.env_no_hash
               (event_loop Scenario.env_no_hash)
               (new_world Scenario.event_with_message) in
  run.1 = Ok tt /\
  _sender (ev run.2) = None /\
  _input_sender (ev run.2) = None /\
  log run.2 = [{| le_call := CSessionGetInputEntity 55;
                  le_answered := false |}].
Proof.
  exact (refetch_sender_uses_cached_message Scenario.env_no_hash
           (new_world Scenario.event_with_message)
           Scenario.anonymous_message Scenario.alice
           Scenario.input_without_hash
           eq_refl eq_refl eq_refl eq_refl eq_refl).
Defined.

Lemma log_extends_refl w : log_extends w w.
Proof. exists []. now rewrite app_nil_r. Qed.

Lemma log_extends_trans w1 w2 w3 :
  log_extends w1 w2 -> log_extends w2 w3 -> log_extends w1 w3.
Proof.
  intros [r1 H1] [r2 H2]. exists (r1 ++ r2).
  now rewrite H2, H1, app_assoc.
Qed.

Lemma log_extends_same w w' : log w' = log w -> log_extends w w'.
Proof. intros Hsame. exists []. now rewrite app_nil_r. Qed.

Lemma log_extends_record c w : log_extends w (record c w).
Proof. now eexists. Qed.

Lemma log_extends_get_message env :
  steps log_extends (get_message env (event_loop env)).
Proof.
  apply steps_get_message;
    first [ exact log_extends_refl | exact log_extends_trans
          | (intros; now apply log_extends_record)
          | (intros; now apply log_extends_same)
          | (intros; now eexists) ].
Qed.

(** X14.  When the chain asks the session.  With the sender in the
    snapshot and an input peer derived from the chat: unless that peer
    has an [access_hash] attribute equal to 0 the chain returns at once
    with the snapshot's entity and that peer in the slots, and calls
    nobody; so a peer without the attribute, as InputPeerSelf, is taken
    as it is.  If the attribute is 0 the session lookup by the sender id
    is the first call the chain makes. *)
Theorem refetch_sender_escalation env w e ip :
  _entities (ev w) !! sender_id (ev w) = Some e ->
  get_input_peer env (_chat (ev w)) = Ok ip ->
  let run := _refetch_sender env (event_loop env) w in
  (ip_access_hash ip <> Some 0 ->
   run = (Ok tt, with_ev (with_input_sender (Some ip))
                   (with_ev (with_sender (Some e)) w))) /\
  (ip_access_hash ip = Some 0 ->
   exists rest,
     log run.2 =
       log w ++
         entry_of (CSessionGetInputEntity (_sender_id (ev w))) w :: rest).
Proof.
  intros Hfound Hpeer. cbn zeta.
  rewrite (refetch_sender_found env _ w e ip Hfound Hpeer). cbn zeta.
  unfold getattr_access_hash. split.
  - intros Hhash. destruct (ip_access_hash ip) as [h|]; [|reflexivity].
    cbn [truthy]. destruct (Z.eqb_spec h 0) as [->|Hnonzero];
      [now destruct Hhash|reflexivity].
  - intros ->. cbn [truthy Z.eqb negb].
    unfold try_except_ValueError, bind at 1, call.
    cbn -[get_message event_loop bind].
    destruct (session_get_input_entity env (log w) (_sender_id (ev w)))
      as [ip'|x].
    + exists []. reflexivity.
    + destruct x; try (exists []; reflexivity).
      match goal with
      | |- context [bind ?m ?k ?w2] =>
          assert (Hext : log_extends w2 (bind m k w2).2)
      end.
      { apply steps_bind;
          [exact log_extends_trans | exact (log_extends_get_message env) |].
        intros [m|]; intros w0; [|apply log_extends_refl].
        unfold bind, assign. cbn. now apply log_extends_same. }
      destruct Hext as [rest Hrest]. exists rest. rewrite Hrest.
      cbn. now rewrite <- app_assoc.
Qed.

Lemma refetch_sender_escalation_witness :
  _refetch_sender Scenario.env_self (event_loop Scenario.env_self)
    (new_world Scenario.event) =
    (Ok tt,
     with_ev (with_input_sender (Some Scenario.input_self))
       (with_ev (with_sender (Some Scenario.alice))
          (new_world Scenario.event))).
Proof.
  apply (proj1 (refetch_sender_escalation Scenario.env_self
                  (new_world Scenario.event) Scenario.alice
                  Scenario.input_self eq_refl eq_refl)).
  discriminate.
Defined.

(** X15.  What the chain leaves behind when it fails.  If no input peer
    can be made of the chat, the chain raises that error with the
    snapshot's entity already in the sender slot, the input-sender slot
    untouched and no call made.  If the session lookup raises anything
    but [ValueError], the chain raises the same with the snapshot's
    entity and the chat's input peer in the slots, and does not go on to
    the message. *)
Theorem refetch_sender_partial_failure env w e :
  _entities (ev w) !! sender_id (ev w) = Some e ->
  let run := _refetch_sender env (event_loop env) w in
  (forall x,
     get_input_peer env (_chat (ev w)) = Raise x ->
     run = (Raise x, with_ev (with_sender (Some e)) w)) /\
  (forall ip x,
     get_input_peer env (_chat (ev w)) = Ok ip ->
     ip_access_hash ip = Some 0 ->
     session_get_input_entity env (log w) (_sender_id (ev w)) = Raise x ->
     x <> ValueError ->
     run.1 = Raise x /\
     _sender (ev run.2) = Some e /\
     _input_sender (ev run.2) = Some ip /\
     log run.2 =
       log w ++ [entry_of (CSessionGetInputEntity (_sender_id (ev w))) w]).
Proof.
  intros Hfound. cbn zeta. split.
  - intros x Hpeer.
    unfold _refetch_sender, bind at 1, self. cbn [ev].
    unfold bind at 1, assign at 1. cbn. rewrite Hfound.
    unfold bind at 1, eval. cbn. now rewrite Hpeer.
  - intros ip x Hpeer Hhash Hbroken Hother.
    rewrite (refetch_sender_found env _ w e ip Hfound Hpeer). cbn zeta.
    unfold getattr_access_hash. rewrite Hhash. cbn [truthy Z.eqb negb].
    unfold try_except_ValueError, bind, call.
    cbn -[get_message event_loop]. rewrite Hbroken.
    destruct x; try (now destruct Hother); now cbn.
Qed.

Lemma refetch_sender_partial_failure_witness :
  (let run := _refetch_sender Scenario.env_peer_fails
                (event_loop Scenario.env_peer_fails)
                (new_world Scenario.event) in
   run.1 = Raise TypeError /\ _sender (ev run.2) = Some Scenario.alice /\
   _input_sender (ev run.2) = None) /\
  (let run := _refetch_sender Scenario.env_session_breaks
                (event_loop Scenario.env_session_breaks)
                (new_world Scenario.event) in
   run.1 = Raise ConnectionError /\
   _input_sender (ev run.2) = Some Scenario.input_without_hash).
Proof.
  split.
  - cbn zeta.
    rewrite (proj1 (refetch_sender_partial_failure Scenario.env_peer_fails
                      (new_world Scenario.event) Scenario.alice eq_refl)
               TypeError eq_refl).
    now repeat split.
  - destruct (proj2 (refetch_sender_partial_failure
                       Scenario.env_session_breaks
                       (new_world Scenario.event) Scenario.alice eq_refl)
                Scenario.input_without_hash ConnectionError
                eq_refl eq_refl eq_refl) as (Hraise & _ & Hinput & _).
    + discriminate.
    + cbn zeta. now split.
Defined.
